(** * A shallow embedding of the reactive store of [src/index.js]

    The module keeps a registry [stores] (a JS [Map] from names to store
    objects).  A store owns a private [stateObj], a [Map] of global
    subscribers and a [Map] of per-property subscriber [Map]s.  Every write
    goes through the [set] trap of a [Proxy] around [stateObj]; the trap
    writes first, then compares old and new value with [!==] and, when they
    differ, calls the property subscribers and then the global subscribers,
    each inside its own [try]/[catch].

    Modelling choices.
    - JS objects live in a heap of property maps addressed by location, so
      that sharing between [initialState], [stateObj] and the snapshots
      handed out by [getState] is explicit.
    - Numbers are the integers, [-0] and [NaN]; fractions are left out.
    - Property names are strings; symbol keys are left out.  An object is
      given by its own properties.  The state object is a plain object, so
      in the code a read of a name that [Object.prototype] defines finds
      the inherited member when there is no own property, and a write to
      [__proto__] runs the inherited setter.  The prototype is not
      modelled: what is stated about the old value of a key is stated for
      the keys of [plain_key], the names [Object.prototype] does not
      define, and what is stated about a key after it is written, for the
      keys other than [__proto__].
    - A subscriber callback is a function from its arguments and the state
      it can read when it is entered to a body made of writes to stores and
      of [throw].  Callbacks that subscribe or unsubscribe while a
      notification is running are left out, so the registries are constant
      during a notification and iterating the [Map] as it was on entry is
      iterating the live [Map].
    - A callback can write to the store that is notifying it, so running a
      write is defined by recursion on a fuel argument that bounds the depth
      of nested writes; [None] stands for a run that does not finish within
      the fuel (or for a call on a store that does not exist). *)

From stdpp Require Import gmap strings list fin_maps.

Local Open Scope string_scope.
Local Open Scope list_scope.

(** ** Values and the heap *)

Definition loc := nat.

Inductive value :=
| VUndef
| VNull
| VBool (b : bool)
| VNum (n : Z)
| VNegZero
| VNaN
| VStr (s : string)
| VRef (a : loc).

#[global] Instance value_eq_dec : EqDecision value.
Proof. solve_decision. Defined.

(** [+0] or [-0]; [VNum 0] is [+0]. *)
Definition is_zero (v : value) : bool :=
  match v with
  | VNum 0 | VNegZero => true
  | _ => false
  end.

(** [a === b]: equality of scalars by value and of objects, arrays and
    functions by reference; [NaN] differs from itself, and the two zeros
    are equal. *)
Definition strict_eq (a b : value) : bool :=
  match a, b with
  | VNaN, _ | _, VNaN => false
  | _, _ => bool_decide (a = b) || (is_zero a && is_zero b)
  end.


(** The names a plain object inherits from [Object.prototype]. *)
Definition object_prototype_names : list string :=
  ["__proto__"; "constructor"; "hasOwnProperty"; "isPrototypeOf";
   "propertyIsEnumerable"; "toLocaleString"; "toString"; "valueOf";
   "__defineGetter__"; "__defineSetter__"; "__lookupGetter__";
   "__lookupSetter__"].

(** A key under which a plain object holds what was assigned to it, and
    nothing before that. *)
Definition plain_key (prop : string) : Prop :=
  prop ∉ object_prototype_names.

(** The own properties of a plain object. *)
Abbreviation obj := (gmap string value).

Inductive completion := Normal | Throw.

(** What a subscriber is called with: [callback(value, oldValue)] for a
    property subscriber, [callback({ [prop]: value }, prop)] for a global
    one (the one-property object is kept as the pair it is built from). *)
Inductive cb_args :=
| PropArgs (value oldValue : value)
| GlobalArgs (prop : string) (value : value).

Definition sid := nat.

Inductive cmd :=
| CSet (s : sid) (prop : string) (v : value)
| CThrow.

Definition callback := cb_args -> obj -> list cmd.

(** A [Map] from symbols to callbacks, in insertion order. *)
Abbreviation sub_map := (list (nat * callback)).

Record store := {
  stateObj : loc;
  subscribers : sub_map;
  propSubscribers : gmap string sub_map
}.

(** Calls of callbacks and console output, oldest first.  [reg] is the
    registry a callback was taken from: [Some prop] for
    [propSubscribers.get(prop)], [None] for [subscribers]. *)
Inductive event :=
| ECall (s : sid) (reg : option string) (id : nat) (args : cb_args) (seen : obj)
| EConsoleError (reg : option string)
| EConsoleWarn (name : string).

Record world := {
  heap : gmap loc obj;
  store_objs : gmap sid store;
  stores : gmap string sid;
  next_sym : nat;
  trace : list event
}.

Definition set_heap (h : gmap loc obj) (w : world) : world :=
  {| heap := h; store_objs := store_objs w; stores := stores w;
     next_sym := next_sym w; trace := trace w |}.

Definition log (e : event) (w : world) : world :=
  {| heap := heap w; store_objs := store_objs w; stores := stores w;
     next_sym := next_sym w; trace := trace w ++ [e] |}.

Definition log_all (es : list event) (w : world) : world :=
  {| heap := heap w; store_objs := store_objs w; stores := stores w;
     next_sym := next_sym w; trace := trace w ++ es |}.

Definition set_store (s : sid) (st : store) (w : world) : world :=
  {| heap := heap w; store_objs := <[s := st]> (store_objs w);
     stores := stores w; next_sym := next_sym w; trace := trace w |}.

(** [target[prop]], for an own property or a [plain_key]: the own
    property, [undefined] without one. *)
Definition read_prop (h : gmap loc obj) (a : loc) (prop : string) : value :=
  match h !! a with
  | Some o => default VUndef (o !! prop)
  | None => VUndef
  end.

(** [target[prop] = value] on a plain object, for a key other than
    [__proto__]: the own property is set or added. *)
Definition obj_assign (a : loc) (prop : string) (v : value) (w : world) : world :=
  set_heap (alter (insert prop v) a (heap w)) w.

(** [{ ...source }]: a new object with the own properties of [source] *)
Definition spread (o : obj) (w : world) : loc * world :=
  let a := fresh (dom (heap w)) in
  (a, set_heap (<[a := o]> (heap w)) w).

(** The own properties of the state object of store [s]. *)
Definition state_of (s : sid) (w : world) : obj :=
  match store_objs w !! s with
  | Some st => default ∅ (heap w !! stateObj st)
  | None => ∅
  end.

(** ** The [set] trap and the notification loops *)

Definition setter := sid -> string -> value -> world -> option (completion * world).

(** The body of a callback; a [throw] ends it, and so does an exception
    that comes out of a write. *)
Fixpoint run_body (set : setter) (body : list cmd) (w : world)
  : option (completion * world) :=
  match body with
  | [] => Some (Normal, w)
  | CThrow :: _ => Some (Throw, w)
  | CSet s prop v :: rest =>
      match set s prop v w with
      | Some (Normal, w') => run_body set rest w'
      | r => r
      end
  end.

(** [subs.forEach(callback => { try { callback(...) } catch (error) {
    console.error(...) } })].  The bodies of the callbacks of this model
    change no registry, so [subs] as it is on entry is the live [Map]
    that the code iterates; the report of the property loop is built from
    the key, a string here, which cannot fail. *)
Fixpoint for_each (set : setter) (s : sid) (reg : option string)
    (args : cb_args) (subs : sub_map) (w : world) : option (completion * world) :=
  match subs with
  | [] => Some (Normal, w)
  | (id, cb) :: rest =>
      let seen := state_of s w in
      match run_body set (cb args seen) (log (ECall s reg id args seen) w) with
      | None => None
      | Some (Normal, w') => for_each set s reg args rest w'
      | Some (Throw, w') => for_each set s reg args rest (log (EConsoleError reg) w')
      end
  end.

(** [state[prop] = value], the [set] trap of the proxy *)
Fixpoint proxy_set (fuel : nat) (s : sid) (prop : string) (value : value)
    (w : world) : option (completion * world) :=
  match fuel with
  | 0 => None
  | S fuel' =>
      match store_objs w !! s with
      | None => None
      | Some st =>
          let oldValue := read_prop (heap w) (stateObj st) prop in
          let w1 := obj_assign (stateObj st) prop value w in
          if strict_eq oldValue value then Some (Normal, w1)
          else
            match for_each (proxy_set fuel') s (Some prop)
                    (PropArgs value oldValue)
                    (default [] (propSubscribers st !! prop)) w1 with
            | Some (Normal, w2) =>
                for_each (proxy_set fuel') s None (GlobalArgs prop value)
                  (subscribers st) w2
            | r => r
            end
      end
  end.

(** ** The store object *)

(** [get(prop) { return state[prop]; }], through the [get] trap *)
Definition store_get (s : sid) (prop : string) (w : world) : value :=
  match store_objs w !! s with
  | Some st => read_prop (heap w) (stateObj st) prop
  | None => VUndef
  end.

(** [set(prop, value) { state[prop] = value; return value; }] *)
Definition store_set (fuel : nat) (s : sid) (prop : string) (v : value)
    (w : world) : option (completion * value * world) :=
  match proxy_set fuel s prop v w with
  | Some (Normal, w') => Some (Normal, v, w')
  | Some (Throw, w') => Some (Throw, VUndef, w')
  | None => None
  end.

(** The argument of [update]: an object, given by its own enumerable
    properties in property order (distinct keys), or a function, given by
    what it would return for a state and by the own enumerable properties
    it has as an object ([own] is empty for a function to which no
    property was added). *)
Inductive updates_arg :=
| UObject (entries : list (string * value))
| UFunction (f : obj -> list (string * value)) (own : list (string * value)).

(** [Object.entries(updates)]: the own enumerable properties, also of a
    function. *)
Definition object_entries (u : updates_arg) : list (string * value) :=
  match u with
  | UObject entries => entries
  | UFunction _ own => own
  end.

(** [entries.forEach(([key, value]) => { state[key] = value; })] *)
Fixpoint update_each (fuel : nat) (s : sid) (entries : list (string * value))
    (w : world) : option (completion * world) :=
  match entries with
  | [] => Some (Normal, w)
  | (key, v) :: rest =>
      match proxy_set fuel s key v w with
      | Some (Normal, w') => update_each fuel s rest w'
      | r => r
      end
  end.

(** [update(updates) { Object.entries(updates).forEach(...); }] *)
Definition store_update (fuel : nat) (s : sid) (u : updates_arg) (w : world)
  : option (completion * world) :=
  update_each fuel s (object_entries u) w.

(** The closures returned by [subscribe] and [on], by what they capture. *)
Inductive unsub_handle :=
| UnsubGlobal (s : sid) (id : nat)
| UnsubProp (s : sid) (prop : string) (id : nat).

(** [map.set(id, callback)] for a new symbol [id]: the entry goes last. *)
Definition map_set (id : nat) (cb : callback) (m : sub_map) : sub_map :=
  m ++ [(id, cb)].

(** [map.delete(id)] *)
Definition map_delete (id : nat) (m : sub_map) : sub_map :=
  filter (fun e => e.1 <> id) m.

(** [const id = Symbol()] *)
Definition new_symbol (w : world) : nat * world :=
  (next_sym w,
   {| heap := heap w; store_objs := store_objs w; stores := stores w;
      next_sym := S (next_sym w); trace := trace w |}).

(** [subscribe(callback) { const id = Symbol(); subscribers.set(id, callback);
    return () => { subscribers.delete(id); }; }]
    Calls on a store take the store's identity; they have no result when
    no store has it. *)
Definition store_subscribe (s : sid) (cb : callback) (w : world)
  : option (unsub_handle * world) :=
  match store_objs w !! s with
  | None => None
  | Some st =>
      let '(id, w1) := new_symbol w in
      Some (UnsubGlobal s id,
            set_store s {| stateObj := stateObj st;
                           subscribers := map_set id cb (subscribers st);
                           propSubscribers := propSubscribers st |} w1)
  end.

(** [on(prop, callback) { if (!propSubscribers.has(prop))
    propSubscribers.set(prop, new Map()); const id = Symbol();
    propSubscribers.get(prop).set(id, callback); return () => { ... }; }] *)
Definition store_on (s : sid) (prop : string) (cb : callback) (w : world)
  : option (unsub_handle * world) :=
  match store_objs w !! s with
  | None => None
  | Some st =>
      let ps := if decide (is_Some (propSubscribers st !! prop))
                then propSubscribers st
                else <[prop := []]> (propSubscribers st) in
      let '(id, w1) := new_symbol w in
      Some (UnsubProp s prop id,
            set_store s {| stateObj := stateObj st;
                           subscribers := subscribers st;
                           propSubscribers :=
                             <[prop := map_set id cb (default [] (ps !! prop))]> ps |} w1)
  end.

(** Calling an unsubscribe function: [subscribers.delete(id)], or
    [if (propSubscribers.has(prop)) propSubscribers.get(prop).delete(id)]. *)
Definition call_unsub (h : unsub_handle) (w : world) : world :=
  match h with
  | UnsubGlobal s id =>
      match store_objs w !! s with
      | None => w
      | Some st =>
          set_store s {| stateObj := stateObj st;
                         subscribers := map_delete id (subscribers st);
                         propSubscribers := propSubscribers st |} w
      end
  | UnsubProp s prop id =>
      match store_objs w !! s with
      | None => w
      | Some st =>
          match propSubscribers st !! prop with
          | None => w
          | Some m =>
              set_store s {| stateObj := stateObj st;
                             subscribers := subscribers st;
                             propSubscribers :=
                               <[prop := map_delete id m]> (propSubscribers st) |} w
          end
      end
  end.

(** [getState() { return { ...stateObj }; }] *)
Definition store_getState (s : sid) (w : world) : option (loc * world) :=
  match store_objs w !! s with
  | None => None
  | Some st => Some (spread (default ∅ (heap w !! stateObj st)) w)
  end.

(** ** The registry *)

(** [createStore(name, initialState = {})]; [None] is an omitted argument. *)
Definition createStore (name : string) (initialState : option loc) (w : world)
  : sid * world :=
  match stores w !! name with
  | Some s => (s, log (EConsoleWarn name) w)
  | None =>
      let source := match initialState with
                    | Some a => default ∅ (heap w !! a)
                    | None => ∅
                    end in
      let '(a, w1) := spread source w in
      let s := fresh (dom (store_objs w1)) in
      (s, {| heap := heap w1;
             store_objs := <[s := {| stateObj := a; subscribers := [];
                                     propSubscribers := ∅ |}]> (store_objs w1);
             stores := <[name := s]> (stores w1);
             next_sym := next_sym w1; trace := trace w1 |})
  end.

Inductive lookup_result :=
| GotStore (s : sid)
| GotUndefined
| GotNull.

(** [stores.get(name)] *)
Definition stores_get (name : string) (w : world) : lookup_result :=
  match stores w !! name with
  | Some s => GotStore s
  | None => GotUndefined
  end.

(** [x || null]; a store object is truthy, [undefined] is not. *)
Definition or_null (x : lookup_result) : lookup_result :=
  match x with
  | GotStore s => GotStore s
  | GotUndefined | GotNull => GotNull
  end.

(** [getStore(name) { return stores.get(name) || null; }] *)
Definition getStore (name : string) (w : world) : lookup_result :=
  or_null (stores_get name w).

Definition empty_world : world :=
  {| heap := ∅; store_objs := ∅; stores := ∅; next_sym := 0; trace := [] |}.

(** Loading the module: [defaultStore = createStore('default', {})]. *)
Definition load_module : sid * world :=
  let '(a, w) := spread ∅ empty_world in
  createStore "default" (Some a) w.

Definition defaultStore : sid := load_module.1.

Definition module_loaded : world := load_module.2.

(** ** Sequences of calls *)

(** What a program can do with the module: call a store, call an
    unsubscribe function, create a store, assign to a property of an
    object. *)
Inductive op :=
| OpSet (s : sid) (prop : string) (v : value)
| OpUpdate (s : sid) (u : updates_arg)
| OpSubscribe (s : sid) (cb : callback)
| OpOn (s : sid) (prop : string) (cb : callback)
| OpUnsub (h : unsub_handle)
| OpGetState (s : sid)
| OpCreateStore (name : string) (initialState : option loc)
| OpAssign (a : loc) (prop : string) (v : value).

Definition step (fuel : nat) (o : op) (w : world) : option world :=
  match o with
  | OpSet s prop v => snd <$> store_set fuel s prop v w
  | OpUpdate s u => snd <$> store_update fuel s u w
  | OpSubscribe s cb => snd <$> store_subscribe s cb w
  | OpOn s prop cb => snd <$> store_on s prop cb w
  | OpUnsub h => Some (call_unsub h w)
  | OpGetState s => snd <$> store_getState s w
  | OpCreateStore name initialState => Some (createStore name initialState w).2
  | OpAssign a prop v => Some (obj_assign a prop v w)
  end.

Fixpoint run (fuel : nat) (ops : list op) (w : world) : option world :=
  match ops with
  | [] => Some w
  | o :: rest =>
      match step fuel o w with
      | Some w' => run fuel rest w'
      | None => None
      end
  end.

(** ** Vocabulary of the statements *)

(** The callbacks registered under [reg] in a store. *)
Definition registry (st : store) (reg : option string) : sub_map :=
  match reg with
  | None => subscribers st
  | Some prop => default [] (propSubscribers st !! prop)
  end.

Definition handle_store (h : unsub_handle) : sid :=
  match h with UnsubGlobal s _ | UnsubProp s _ _ => s end.

Definition handle_reg (h : unsub_handle) : option string :=
  match h with UnsubGlobal _ _ => None | UnsubProp _ prop _ => Some prop end.

Definition handle_id (h : unsub_handle) : nat :=
  match h with UnsubGlobal _ id | UnsubProp _ _ id => id end.

(** The symbols of a subscriber map were all issued, each once. *)
Definition ids_ok (n : nat) (m : sub_map) : Prop :=
  Forall (fun id => id < n) m.*1 /\ NoDup m.*1.

(** A store's state object is allocated and its symbols are in order. *)
Definition wf_store (w : world) (st : store) : Prop :=
  is_Some (heap w !! stateObj st) /\
  ids_ok (next_sym w) (subscribers st) /\
  map_Forall (fun _ m => ids_ok (next_sym w) m) (propSubscribers st).

#[global] Instance ids_ok_dec n m : Decision (ids_ok n m).
Proof. unfold ids_ok. apply _. Defined.

#[global] Instance wf_store_dec w st : Decision (wf_store w st).
Proof. unfold wf_store. apply _. Defined.

(** The worlds the module can be in: every store is well formed and every
    registered name leads to a store. *)
Definition wf_world (w : world) : Prop :=
  map_Forall (fun _ st => wf_store w st) (store_objs w) /\
  map_Forall (fun _ s => is_Some (store_objs w !! s)) (stores w).

#[global] Instance wf_world_dec w : Decision (wf_world w).
Proof. unfold wf_world. apply _. Defined.

(** What no call takes back: issued symbols, registered names, the stores
    and their state objects, allocated objects. *)
Definition evolves (w w' : world) : Prop :=
  next_sym w <= next_sym w' /\
  (forall name s, stores w !! name = Some s -> stores w' !! name = Some s) /\
  (forall s st, store_objs w !! s = Some st ->
     exists st', store_objs w' !! s = Some st' /\ stateObj st' = stateObj st) /\
  dom (heap w) ⊆ dom (heap w').

(** Calls that touch neither a registry nor the symbol counter. *)
Definition same_stores (w w' : world) : Prop :=
  store_objs w' = store_objs w /\ stores w' = stores w /\
  next_sym w' = next_sym w /\ dom (heap w) ⊆ dom (heap w').

(** The subscription behind [h] was issued and is not registered. *)
Definition gone (h : unsub_handle) (w : world) : Prop :=
  handle_id h < next_sym w /\
  forall st, store_objs w !! handle_store h = Some st ->
    handle_id h ∉ (registry st (handle_reg h)).*1.

(** What a write and its notifications leave alone: the registries, the
    symbol counter, the set of allocated objects and the trace so far. *)
Definition frame (w w' : world) : Prop :=
  store_objs w' = store_objs w /\ stores w' = stores w /\
  next_sym w' = next_sym w /\ dom (heap w') = dom (heap w) /\
  trace w `prefix_of` trace w'.

Definition setter_ok (set : setter) : Prop :=
  forall s prop v w c w',
    set s prop v w = Some (c, w') -> c = Normal /\ frame w w'.

(** A callback that never writes to a store: it returns or throws. *)
Definition write_free (cb : callback) : Prop :=
  forall args seen, Forall (fun c => c = CThrow) (cb args seen).

Definition passive_subs (m : sub_map) : Prop :=
  Forall (fun e => write_free e.2) m.

Definition passive (st : store) : Prop :=
  passive_subs (subscribers st) /\
  map_Forall (fun _ m => passive_subs m) (propSubscribers st).

Definition throws (body : list cmd) : bool :=
  match body with
  | CThrow :: _ => true
  | _ => false
  end.

(** The events of one [forEach] over write-free callbacks. *)
Definition notify_events (s : sid) (reg : option string) (args : cb_args)
    (seen : obj) (subs : sub_map) : list event :=
  flat_map (fun e => ECall s reg e.1 args seen ::
                     if throws (e.2 args seen) then [EConsoleError reg] else [])
           subs.

(** The events of one write to [prop] in a store of write-free callbacks. *)
Definition set_events (s : sid) (st : store) (prop : string) (v : value)
    (w : world) : list event :=
  let oldValue := read_prop (heap w) (stateObj st) prop in
  let seen := state_of s (obj_assign (stateObj st) prop v w) in
  if strict_eq oldValue v then []
  else notify_events s (Some prop) (PropArgs v oldValue) seen
         (default [] (propSubscribers st !! prop)) ++
       notify_events s None (GlobalArgs prop v) seen (subscribers st).


(** The properties of an object after the assignments of [entries]. *)
Definition apply_entries (entries : list (string * value)) (o : obj) : obj :=
  foldl (fun acc e => <[e.1 := e.2]> acc) o entries.

(** The value a callback is told about. *)
Definition told_value (args : cb_args) : value :=
  match args with
  | PropArgs v _ => v
  | GlobalArgs _ v => v
  end.

(** The symbols registered in a store. *)
Definition global_ids (st : store) : list nat := (subscribers st).*1.

Definition prop_ids (st : store) (prop : string) : list nat :=
  (default [] (propSubscribers st !! prop)).*1.

(** [store.getState()[prop]] *)
Definition snapshot_read (s : sid) (prop : string) (w : world) : value :=
  match store_getState s w with
  | Some (r, w') => read_prop (heap w') r prop
  | None => VUndef
  end.

(** [subscribe(callback)] or [on(prop, callback)], by registry. *)
Definition subscribe_at (s : sid) (reg : option string) (cb : callback)
    (w : world) : option (unsub_handle * world) :=
  match reg with
  | None => store_subscribe s cb w
  | Some prop => store_on s prop cb w
  end.

(** [m'] is [m] without the one entry of symbol [id], if [m] has it. *)
Definition without_entry (id : nat) (m m' : sub_map) : Prop :=
  ((id ∉ m.*1) /\ m' = m) \/
  exists before cb after, m = before ++ (id, cb) :: after /\ m' = before ++ after.

(** ** Example stores *)

Definition quiet : callback := fun _ _ => [].
Definition thrower : callback := fun _ _ => [CThrow].

(** A callback that resets the property it watches: [() => { store.state.a = 0 }] *)
Definition reset_a (s : sid) : callback := fun _ _ => [CSet s "a" (VNum 0)].

(** An object literal. *)
Definition literal (entries : list (string * value)) (w : world) : loc * world :=
  spread (list_to_map entries) w.

Definition run_from (w : world) (ops : list op) : world :=
  default w (run 8 ops w).

(** [createStore('app', {})] after loading; the new store is store 1. *)
Definition app : sid := 1.

(** [on('count', quiet); subscribe(thrower)] *)
Definition counter_world : world :=
  run_from module_loaded
    [OpCreateStore "app" None; OpOn app "count" quiet; OpSubscribe app thrower].

Definition counter_store : store :=
  {| stateObj := 2; subscribers := [(1, thrower)];
     propSubscribers := {["count" := [(0, quiet)]]} |}.

(** [on('a', () => { store.state.a = 0 })] *)
Definition reset_world : world :=
  run_from module_loaded [OpCreateStore "app" None; OpOn app "a" (reset_a app)].

(** [createStore('app', { user: { name: 'A', age: 1 } })] with
    [on('user', quiet); on('user.name', quiet)] *)
Definition user_world : world :=
  let '(u, w1) := literal [("name", VStr "A"); ("age", VNum 1)] module_loaded in
  let '(init, w2) := literal [("user", VRef u)] w1 in
  run_from w2
    [OpCreateStore "app" (Some init); OpOn app "user" quiet;
     OpOn app "user.name" quiet].

(** [createStore('app', { a: 0, b: 0 })] with [on('a', quiet)] *)
Definition pair_world : world :=
  let '(init, w1) := literal [("a", VNum 0); ("b", VNum 0)] module_loaded in
  run_from w1 [OpCreateStore "app" (Some init); OpOn app "a" quiet].

Definition pair_store : store :=
  {| stateObj := 3; subscribers := [];
     propSubscribers := {["a" := [(0, quiet)]]} |}.

(** [on('count', thrower); on('count', quiet); subscribe(thrower);
    subscribe(quiet)] *)
Definition faulty_world : world :=
  run_from module_loaded
    [OpCreateStore "app" None; OpOn app "count" thrower; OpOn app "count" quiet;
     OpSubscribe app thrower; OpSubscribe app quiet].

Definition faulty_store : store :=
  {| stateObj := 2; subscribers := [(2, thrower); (3, quiet)];
     propSubscribers := {["count" := [(0, thrower); (1, quiet)]]} |}.

Definition user_store : store :=
  {| stateObj := 4; subscribers := [];
     propSubscribers := {["user" := [(0, quiet)]; "user.name" := [(1, quiet)]]} |}.

(** Two subscriptions with the same callback on the same property:
    [on('count', quiet)] twice; the second one is unsubscribed later. *)
Definition twin_world : world :=
  run_from module_loaded [OpCreateStore "app" None; OpOn app "count" quiet].

Definition twin_handle : unsub_handle := UnsubProp app "count" 1.

Definition twin_subscribed : world :=
  run_from twin_world [OpOn app "count" quiet].

Definition twin_before : world :=
  run_from twin_subscribed [OpSet app "count" (VNum 1)].

Definition twin_after : world :=
  run_from (call_unsub twin_handle twin_before)
    [OpSet app "count" (VNum 2); OpUnsub twin_handle; OpOn app "count" thrower].

(** [store.get(p1)[p2]] *)
Definition nested_read (s : sid) (p1 p2 : string) (w : world) : value :=
  match store_get s p1 w with
  | VRef a => read_prop (heap w) a p2
  | _ => VUndef
  end.

(** [const snap = store.getState()] in [user_world]; [snap] is object 5. *)
Definition user_snapshot : world :=
  match store_getState app user_world with
  | Some (_, w') => w'
  | None => user_world
  end.

(** An object [{ count: 5 }] to offer as initial state. *)
Definition offered : loc := 2.

Definition offer_world : world :=
  (literal [("count", VNum 5)] module_loaded).2.


(** ** More vocabulary: order of calls, separation of stores *)

(** The callbacks called, in the order of the calls, each by the registry
    it was taken from and its symbol. *)
Definition calls (evs : list event) : list (option string * nat) :=
  omap (fun e => match e with
                 | ECall _ reg id _ _ => Some (reg, id)
                 | _ => None
                 end) evs.

(** No two stores have the same state object. *)
Definition states_distinct (w : world) : Prop :=
  forall s1 s2 st1 st2,
    store_objs w !! s1 = Some st1 -> store_objs w !! s2 = Some st2 ->
    stateObj st1 = stateObj st2 -> s1 = s2.

(** How the set of stores changes in one call: a store that is there was
    there with the same state object, or it is the one new store and its
    state object is newly allocated. *)
Definition store_step (w w' : world) : Prop :=
  forall s st', store_objs w' !! s = Some st' ->
    (exists st, store_objs w !! s = Some st /\ stateObj st = stateObj st') \/
    (s = fresh (dom (store_objs w)) /\ heap w !! stateObj st' = None).

(** [a] is not the state object of a store. *)
Definition not_a_state (a : loc) (w : world) : Prop :=
  forall s st, store_objs w !! s = Some st -> stateObj st <> a.

(** Writes through a proxy touch state objects only. *)
Definition states_only (w w' : world) : Prop :=
  store_objs w' = store_objs w /\
  forall a, not_a_state a w -> heap w' !! a = heap w !! a.

(** No object goes away and no object loses a key. *)
Definition keys_kept (w w' : world) : Prop :=
  forall a o, heap w !! a = Some o ->
    exists o', heap w' !! a = Some o' /\ dom o ⊆ dom o'.

(** The calls other than a plain assignment to the object [a]. *)
Definition leaves_alone (a : loc) (o : op) : Prop :=
  match o with
  | OpAssign a' _ _ => a' <> a
  | _ => True
  end.

(** [const off = store.on('theme', quiet)] in [twin_world]. *)
Definition theme_handle : unsub_handle := UnsubProp app "theme" 1.

Definition theme_subscribed : world :=
  run_from twin_world [OpOn app "theme" quiet].

(** * The component mixin: [StoreConnector(store)(BaseClass)] *)

(** ** Templates *)

From Stdlib Require Import Ascii.

(** A JS string as its characters. *)
Abbreviation chars := Stdlib.Strings.String.list_ascii_of_string.
Abbreviation text := Stdlib.Strings.String.string_of_list_ascii.

(** [[^}]+}] read from the start of [l]: the characters before the first
    closing brace, and what follows that brace. *)
Fixpoint take_name (l : list ascii) : option (list ascii * list ascii) :=
  match l with
  | [] => None
  | c :: l' =>
      if decide (c = "}"%char) then Some ([], l')
      else match take_name l' with
           | Some (name, rest) => Some (c :: name, rest)
           | None => None
           end
  end.

(** A match of [/\${([^}]+)}/] at the start of [l]: the name captured by
    the group (not empty), and what follows the match. *)
Definition match_placeholder (l : list ascii)
  : option (list ascii * list ascii) :=
  match l with
  | d :: b :: l' =>
      if decide (d = "$"%char /\ b = "{"%char) then
        match take_name l' with
        | Some (c :: name, rest) => Some (c :: name, rest)
        | _ => None
        end
      else None
  | _ => None
  end.

(** [l.replace(/\${([^}]+)}/g, (match, name) => f(name))]: matches are
    looked for from left to right, each search starting where the match
    before it ended; what [f] returns is not searched.  [fuel] bounds the
    number of characters looked at. *)
Fixpoint replace_fuel (fuel : nat) (f : list ascii -> list ascii)
    (l : list ascii) : list ascii :=
  match fuel with
  | 0 => l
  | S fuel' =>
      match match_placeholder l with
      | Some (name, rest) => f name ++ replace_fuel fuel' f rest
      | None =>
          match l with
          | [] => []
          | c :: l' => c :: replace_fuel fuel' f l'
          end
      end
  end.

Definition replace_all (f : list ascii -> list ascii) (l : list ascii)
  : list ascii :=
  replace_fuel (length l) f l.

(** The text of a match of the name [name]: [${name}]. *)
Definition placeholder (name : list ascii) : list ascii :=
  "$"%char :: "{"%char :: name ++ ["}"%char].

(** [text.includes('${')] *)
Fixpoint includes_open (l : list ascii) : bool :=
  match l with
  | d :: l' =>
      match l' with
      | b :: _ => bool_decide (d = "$"%char /\ b = "{"%char) || includes_open l'
      | [] => false
      end
  | [] => false
  end.

(** [let template = null; if (element.textContent &&
    element.textContent.includes('${')) template = element.textContent;] *)
Definition template_of (textContent : string) : option string :=
  if includes_open (chars textContent) then Some textContent else None.

(** [template.replace(/\${([^}]+)}/g, (match, propName) =>
       propName === prop ? formatter(value) : match)];
    [formatter] is taken to return a string. *)
Definition fill (prop : string) (formatter : value -> string) (v : value)
    (t : string) : string :=
  text (replace_all
          (fun name => if decide (name = chars prop)
                       then chars (formatter v) else placeholder name)
          (chars t)).

(** The text [updateElement(value)] gives the element; [if (template)]
    fails for [null] and for the empty string. *)
Definition updateElement (template : option string) (prop : string)
    (formatter : value -> string) (v : value) : string :=
  match template with
  | Some t => if decide (t = ""%string) then formatter v
              else fill prop formatter v t
  | None => formatter v
  end.

(** ** The document *)

(** Only what the mixin touches of an element is kept: its [textContent],
    its [value] and its listeners for ['input'].  A listener added by
    [bindInput] is the closure [() => { store.state[prop] = input.value; }];
    it is kept by an identity of its own, the store and the property. *)
Definition elem := nat.

Record document := {
  texts : gmap elem string;
  inputs : gmap elem string;
  input_listeners : gmap elem (list (nat * sid * string))
}.

(** [element.textContent] *)
Definition text_of (d : document) (el : elem) : string := default ""%string (texts d !! el).

(** [input.value] *)
Definition value_of (d : document) (el : elem) : string := default ""%string (inputs d !! el).

(** [element.textContent = t] *)
Definition set_text (el : elem) (t : string) (d : document) : document :=
  {| texts := <[el := t]> (texts d); inputs := inputs d;
     input_listeners := input_listeners d |}.

(** [input.value = t] *)
Definition set_value (el : elem) (t : string) (d : document) : document :=
  {| texts := texts d; inputs := <[el := t]> (inputs d);
     input_listeners := input_listeners d |}.

(** [input.addEventListener('input', handler)] for a new closure *)
Definition add_listener (el : elem) (l : nat * sid * string) (d : document) : document :=
  {| texts := texts d; inputs := inputs d;
     input_listeners :=
       <[el := default [] (input_listeners d !! el) ++ [l]]> (input_listeners d) |}.

(** [input.removeEventListener('input', handler)] *)
Definition remove_listener (el : elem) (lid : nat) (d : document) : document :=
  {| texts := texts d; inputs := inputs d;
     input_listeners :=
       <[el := filter (fun l => l.1.1 <> lid)
                 (default [] (input_listeners d !! el))]> (input_listeners d) |}.

(** Truthiness, for [x || y]. *)
Definition truthy (v : value) : bool :=
  match v with
  | VUndef | VNull | VNaN => false
  | VBool b => b
  | VNum n => negb (n =? 0)%Z
  | VNegZero => false
  | VStr s => negb (String.eqb s "")
  | VRef _ => true
  end.

Definition js_or (a b : value) : value := if truthy a then a else b.

(** What the callbacks that the mixin subscribes do, given the value they
    are called with.  They touch the document only:
    - [updateElement], of [bindElement];
    - [(value) => { if (input.value !== value) input.value = value; }], of
      [bindInput]; [conv] is the conversion to a string that the setter of
      [input.value] applies. *)
Inductive dom_effect :=
| UpdateElement (el : elem) (template : option string) (prop : string)
    (formatter : value -> string)
| UpdateInput (el : elem) (conv : value -> string).

Definition apply_effect (eff : dom_effect) (v : value) (d : document) : document :=
  match eff with
  | UpdateElement el template prop formatter =>
      set_text el (updateElement template prop formatter v) d
  | UpdateInput el conv =>
      if strict_eq (VStr (value_of d el)) v then d
      else set_value el (conv v) d
  end.

(** For the stores such a callback does nothing. *)
Definition dom_only : callback := fun _ _ => [].

(** A subscription, by its store, its registry and its symbol. *)
Abbreviation sub_key := (sid * option string * nat)%type.

(** A page: the stores, the document, and for the subscriptions made by
    the mixin what they do to the document. *)
Record page := {
  world_of : world;
  dom_of : document;
  dom_effects : gmap sub_key dom_effect;
  next_listener : nat
}.

(** The trace lists the calls of callbacks in the order in which they are
    made; the callbacks of the mixin do not read what the others do, so
    what they do to the document is what comes of going through the calls
    in that order. *)
Definition replay_event (effs : gmap sub_key dom_effect) (e : event)
    (d : document) : document :=
  match e with
  | ECall s reg id (PropArgs v _) _ =>
      match effs !! (s, reg, id) with
      | Some eff => apply_effect eff v d
      | None => d
      end
  | _ => d
  end.

Definition replay (effs : gmap sub_key dom_effect) (evs : list event)
    (d : document) : document :=
  foldl (fun d e => replay_event effs e d) d evs.

(** The page once the stores have gone from [world_of pg] to [w']. *)
Definition settle (pg : page) (w' : world) : page :=
  {| world_of := w';
     dom_of := replay (dom_effects pg)
                 (drop (length (trace (world_of pg))) (trace w')) (dom_of pg);
     dom_effects := dom_effects pg;
     next_listener := next_listener pg |}.

(** [store.state[prop] = v] on a page *)
Definition page_set (fuel : nat) (s : sid) (prop : string) (v : value)
    (pg : page) : option (completion * page) :=
  match proxy_set fuel s prop v (world_of pg) with
  | Some (c, w') => Some (c, settle pg w')
  | None => None
  end.

(** ** The methods of the mixin *)

(** The closures pushed on [_unsubscribers]. *)
Inductive cleanup :=
| Unsub (h : unsub_handle)
| RemoveListener (el : elem) (lid : nat).

(** An instance of the class the mixin returns, for the store [s] it was
    given. *)
Record component := {
  _unsubscribers : list cleanup;
  _boundElements : gmap elem (string * unsub_handle)
}.

(** [constructor() { super(); this._unsubscribers = [];
    this._boundElements = new Map(); }] *)
Definition new_component : component :=
  {| _unsubscribers := []; _boundElements := ∅ |}.

(** [bindElement(element, prop, formatter)]; [None] for [element] is a
    falsy argument. *)
Definition bindElement (s : sid) (element : option elem) (prop : string)
    (formatter : value -> string) (c : component) (pg : page)
  : option (component * page) :=
  match element with
  | None => Some (c, pg)
  | Some el =>
      let template := template_of (text_of (dom_of pg) el) in
      let d1 := set_text el
                  (updateElement template prop formatter
                     (store_get s prop (world_of pg))) (dom_of pg) in
      match store_on s prop dom_only (world_of pg) with
      | None => None
      | Some (unsub, w1) =>
          Some ({| _unsubscribers := _unsubscribers c ++ [Unsub unsub];
                   _boundElements := <[el := (prop, unsub)]> (_boundElements c) |},
                {| world_of := w1; dom_of := d1;
                   dom_effects :=
                     <[(s, Some prop, handle_id unsub) :=
                         UpdateElement el template prop formatter]>
                       (dom_effects pg);
                   next_listener := next_listener pg |})
      end
  end.

(** [bindInput(input, prop)] *)
Definition bindInput (s : sid) (input : option elem) (prop : string)
    (conv : value -> string) (c : component) (pg : page)
  : option (component * page) :=
  match input with
  | None => Some (c, pg)
  | Some el =>
      let d1 := set_value el
                  (conv (js_or (store_get s prop (world_of pg)) (VStr "")))
                  (dom_of pg) in
      let lid := next_listener pg in
      let d2 := add_listener el (lid, s, prop) d1 in
      match store_on s prop dom_only (world_of pg) with
      | None => None
      | Some (unsub, w1) =>
          Some ({| _unsubscribers :=
                     (_unsubscribers c ++ [Unsub unsub]) ++ [RemoveListener el lid];
                   _boundElements := _boundElements c |},
                {| world_of := w1; dom_of := d2;
                   dom_effects :=
                     <[(s, Some prop, handle_id unsub) := UpdateInput el conv]>
                       (dom_effects pg);
                   next_listener := S lid |})
      end
  end.

(** The user types [typed] into [el]: the value is set and the ['input']
    listeners run in the order in which they were added. *)
Fixpoint run_listeners (fuel : nat) (el : elem)
    (ls : list (nat * sid * string)) (pg : page) : option (completion * page) :=
  match ls with
  | [] => Some (Normal, pg)
  | (_, s, prop) :: rest =>
      match page_set fuel s prop (VStr (value_of (dom_of pg) el)) pg with
      | Some (Normal, pg') => run_listeners fuel el rest pg'
      | r => r
      end
  end.

Definition input_event (fuel : nat) (el : elem) (typed : string) (pg : page)
  : option (completion * page) :=
  run_listeners fuel el (default [] (input_listeners (dom_of pg) !! el))
    {| world_of := world_of pg; dom_of := set_value el typed (dom_of pg);
       dom_effects := dom_effects pg; next_listener := next_listener pg |}.

Definition run_cleanup (cl : cleanup) (pg : page) : page :=
  match cl with
  | Unsub h =>
      {| world_of := call_unsub h (world_of pg); dom_of := dom_of pg;
         dom_effects := dom_effects pg; next_listener := next_listener pg |}
  | RemoveListener el lid =>
      {| world_of := world_of pg; dom_of := remove_listener el lid (dom_of pg);
         dom_effects := dom_effects pg; next_listener := next_listener pg |}
  end.

(** [disconnectedCallback() { this._unsubscribers.forEach(unsub => unsub());
    this._unsubscribers = []; ... }]; the call of the base class's
    [disconnectedCallback], if it has one, is left out. *)
Definition disconnectedCallback (c : component) (pg : page)
  : component * page :=
  ({| _unsubscribers := []; _boundElements := _boundElements c |},
   foldl (fun pg cl => run_cleanup cl pg) pg (_unsubscribers c)).

(** The argument [props] of [connect]: an array of names or one name. *)
Inductive props_arg :=
| PropArray (names : list string)
| PropName (name : string).

(** [if (!Array.isArray(props)) props = [props];] *)
Definition props_array (props : props_arg) : list string :=
  match props with
  | PropArray names => names
  | PropName name => [name]
  end.

(** [(update, changedProp) => { if (props.includes(changedProp))
    callback(store.state); }]; the user's callback is given by what it
    does with the state it is shown. *)
Definition connect_handler (props : list string) (view : obj -> list cmd)
  : callback :=
  fun args seen =>
    match args with
    | GlobalArgs changedProp _ =>
        if bool_decide (changedProp ∈ props) then view seen else []
    | PropArgs _ (VStr changedProp) =>
        if bool_decide (changedProp ∈ props) then view seen else []
    | PropArgs _ _ => []
    end.

(** [connect(props, callback)]: subscribe the handler, keep its
    unsubscribe function, then call [callback(store.state)], outside any
    [try]. *)
Definition connect (fuel : nat) (s : sid) (props : props_arg)
    (view : obj -> list cmd) (c : component) (pg : page)
  : option (completion * component * page) :=
  match store_subscribe s (connect_handler (props_array props) view)
          (world_of pg) with
  | None => None
  | Some (unsub, w1) =>
      let c1 := {| _unsubscribers := _unsubscribers c ++ [Unsub unsub];
                   _boundElements := _boundElements c |} in
      let pg1 := {| world_of := w1; dom_of := dom_of pg;
                    dom_effects := dom_effects pg;
                    next_listener := next_listener pg |} in
      match run_body (proxy_set fuel) (view (state_of s w1)) w1 with
      | None => None
      | Some (cmpl, w2) => Some (cmpl, c1, settle pg1 w2)
      end
  end.

(** ** What a page keeps true *)

(** What a callback of the mixin writes to. *)
Inductive target :=
| TText (el : elem)
| TValue (el : elem).

#[global] Instance target_eq_dec : EqDecision target.
Proof. solve_decision. Defined.

Definition target_of (eff : dom_effect) : target :=
  match eff with
  | UpdateElement el _ _ _ => TText el
  | UpdateInput el _ => TValue el
  end.

Definition field (tg : target) (d : document) : string :=
  match tg with
  | TText el => text_of d el
  | TValue el => value_of d el
  end.

(** What the callback leaves in its target when called with [v]. *)
Definition rendered (eff : dom_effect) (v : value) : string :=
  match eff with
  | UpdateElement _ template prop formatter =>
      updateElement template prop formatter v
  | UpdateInput _ conv => conv v
  end.

(** The subscription is in its subscriber map. *)
Definition registered (key : sub_key) (w : world) : Prop :=
  exists st cb, store_objs w !! key.1.1 = Some st /\
                (key.2, cb) ∈ registry st key.1.2.

(** The value of the property the subscription is for. *)
Definition current (key : sub_key) (w : world) : value :=
  match key.1.2 with
  | Some prop => store_get key.1.1 prop w
  | None => VUndef
  end.

(** The target shows the current value: as the callback renders it, or,
    for an input and a falsy value, as the empty string that [bindInput]
    starts with. *)
Definition shows (w : world) (d : document) (key : sub_key)
    (eff : dom_effect) : Prop :=
  field (target_of eff) d = rendered eff (current key w) \/
  (exists el conv, eff = UpdateInput el conv) /\
  truthy (current key w) = false /\ field (target_of eff) d = ""%string.

(** The setter of [input.value] leaves a string as it is. *)
Definition conv_ok (eff : dom_effect) : Prop :=
  match eff with
  | UpdateElement _ _ _ _ => True
  | UpdateInput _ conv => forall t, conv (VStr t) = t
  end.

Record page_ok (pg : page) : Prop := {
  ok_world : wf_world (world_of pg);
  ok_distinct : states_distinct (world_of pg);
  ok_passive : forall s st,
    store_objs (world_of pg) !! s = Some st -> passive st;
  ok_keys : forall key eff,
    dom_effects pg !! key = Some eff ->
    key.2 < next_sym (world_of pg) /\ is_Some key.1.2 /\ conv_ok eff;
  (** every bound element and input shows the value it is bound to *)
  ok_shows : forall key eff,
    dom_effects pg !! key = Some eff -> registered key (world_of pg) ->
    shows (world_of pg) (dom_of pg) key eff;
  (** no two live subscriptions write to the same target *)
  ok_exclusive : forall key1 key2 eff1 eff2,
    dom_effects pg !! key1 = Some eff1 -> dom_effects pg !! key2 = Some eff2 ->
    registered key1 (world_of pg) -> registered key2 (world_of pg) ->
    target_of eff1 = target_of eff2 -> key1 = key2;
  (** a listener for ['input'] writes to a store that exists, to the
      property that the input is bound to *)
  ok_listeners : forall el l,
    input_listeners (dom_of pg) !! el = Some l ->
    Forall (fun x => x.1.1 < next_listener pg /\
                     is_Some (store_objs (world_of pg) !! x.1.2)) l /\
    forall lid s prop key eff,
      (lid, s, prop) ∈ l ->
      dom_effects pg !! key = Some eff -> registered key (world_of pg) ->
      target_of eff = TValue el -> key.1 = (s, Some prop)
}.

(** No live subscription of the mixin writes to [tg]. *)
Definition untouched (tg : target) (pg : page) : Prop :=
  forall key eff,
    dom_effects pg !! key = Some eff -> registered key (world_of pg) ->
    target_of eff <> tg.

(** The subscription an unsubscribe function is for. *)
Definition handle_key (h : unsub_handle) : sub_key :=
  (handle_store h, handle_reg h, handle_id h).

(** The ['input'] listeners of an element. *)
Definition listeners_of (pg : page) (el : elem) : list (nat * sid * string) :=
  default [] (input_listeners (dom_of pg) !! el).

(** ** An example page *)

(** [createStore('app', {}); store.set('name', 'Ann')], with an element
    [<p>Hello ${name}!</p>] and an [<input>]. *)
Definition hello_world : world :=
  run_from module_loaded
    [OpCreateStore "app" None; OpSet app "name" (VStr "Ann")].

Definition greeting : elem := 0.
Definition name_box : elem := 1.

(** A formatter: strings as they are, nothing for other values. *)
Definition as_text (v : value) : string :=
  match v with
  | VStr t => t
  | _ => ""%string
  end.

Definition hello_page : page :=
  {| world_of := hello_world;
     dom_of := {| texts := {[greeting := "Hello ${name}!"%string]};
                  inputs := ∅; input_listeners := ∅ |};
     dom_effects := ∅;
     next_listener := 0 |}.

(** [this.bindElement(p, 'name', as_text).bindInput(input, 'name')] *)
Definition hello_bound : component * page :=
  default (new_component, hello_page)
    (match bindElement app (Some greeting) "name" as_text new_component
             hello_page with
     | Some (c1, pg1) => bindInput app (Some name_box) "name" as_text c1 pg1
     | None => None
     end).

Definition hello_store : store :=
  {| stateObj := 2; subscribers := [];
     propSubscribers := {["name" := [(0, dom_only); (1, dom_only)]]} |}.

(** A callback for [connect] that throws. *)
Definition failing_view : obj -> list cmd := fun _ => [CThrow].





(** ** Basic facts *)








Lemma world_eta w :
  {| heap := heap w; store_objs := store_objs w; stores := stores w;
     next_sym := next_sym w; trace := trace w |} = w.
Proof. by destruct w. Qed.

Lemma log_all_nil w : log_all [] w = w.
Proof. unfold log_all. rewrite app_nil_r. apply world_eta. Qed.

Lemma log_all_log_all es1 es2 w :
  log_all es2 (log_all es1 w) = log_all (es1 ++ es2) w.
Proof. unfold log_all; simpl. by rewrite app_assoc. Qed.

Lemma log_is_log_all e w : log e w = log_all [e] w.
Proof. done. Qed.

Lemma state_of_log_all s es w : state_of s (log_all es w) = state_of s w.
Proof. done. Qed.

Lemma frame_refl w : frame w w.
Proof. done. Qed.

Lemma frame_trans w1 w2 w3 : frame w1 w2 -> frame w2 w3 -> frame w1 w3.
Proof.
  intros (?&?&?&?&?) (?&?&?&?&?). repeat split; try congruence.
  by etrans.
Qed.

Lemma frame_log e w : frame w (log e w).
Proof. unfold frame; simpl. split_and!; [done..|]. by apply prefix_app_r. Qed.

Lemma frame_obj_assign a prop v w : frame w (obj_assign a prop v w).
Proof.
  unfold frame; simpl. split_and!; [done..| |done].
  apply leibniz_equiv, dom_alter.
Qed.

Create HintDb frame.

#[local] Hint Resolve frame_refl frame_trans frame_log frame_obj_assign : frame.

Ltac app_norm :=
  simpl; repeat (rewrite <- app_assoc; simpl); try reflexivity.

(** ** Writes never throw and leave the registries alone *)

(** The notification loops, for any way [set] of writing to a store that
    itself ends normally and frames the world. *)
Section Loops.
Context (set : setter) (Hset : setter_ok set).

Lemma run_body_frame body w c w' :
  run_body set body w = Some (c, w') -> frame w w'.
Proof.
  revert w. induction body as [|[s prop v|] rest IH]; simpl; intros w H.
  - by inversion H.
  - destruct (set s prop v w) as [[[] w1]|] eqn:E; [| |done].
    + apply Hset in E as [_ F1]. eauto with frame.
    + inversion H; subst. by apply Hset in E as [_ F1].
  - by inversion H.
Qed.

Lemma run_body_throw body w c w' :
  run_body set body w = Some (c, w') -> (c = Throw <-> CThrow ∈ body).
Proof.
  revert w. induction body as [|[s prop v|] rest IH]; simpl; intros w H.
  - inversion H. split; [done|]. by intros ?%elem_of_nil.
  - destruct (set s prop v w) as [[[] w1]|] eqn:E; [| |done].
    + rewrite (IH _ H), elem_of_cons. split; [by right|].
      by intros [?|?].
    + by apply Hset in E as [? _].
  - inversion H. split; [|done]. intros _. left.
Qed.

Lemma for_each_frame s reg args subs w c w' :
  for_each set s reg args subs w = Some (c, w') -> c = Normal /\ frame w w'.
Proof.
  revert w. induction subs as [|[id cb] rest IH]; simpl; intros w H.
  - by inversion H.
  - destruct (run_body set _ _) as [[[] w1]|] eqn:E; [| |done];
      apply run_body_frame in E; apply IH in H as [-> F];
      (split; [done|]); eauto with frame.
Qed.

(** Every callback of a [forEach] is called, whatever the callbacks before
    it did, and a callback that throws is followed by its report. *)
Lemma for_each_calls s reg args subs w c w' id cb :
  for_each set s reg args subs w = Some (c, w') ->
  (id, cb) ∈ subs ->
  exists seen pre post,
    trace w' = trace w ++ pre ++ ECall s reg id args seen :: post /\
    (CThrow ∈ cb args seen -> EConsoleError reg ∈ post).
Proof.
  revert w. induction subs as [|[id0 cb0] rest IH]; intros w H Hin.
  - by apply elem_of_nil in Hin.
  - simpl in H.
    destruct (run_body set _ _) as [[c1 w1]|] eqn:E; [|done].
    pose proof (run_body_frame _ _ _ _ E) as (_ & _ & _ & _ & [evs1 Ht1]).
    pose proof (run_body_throw _ _ _ _ E) as Hthrow.
    simpl in Ht1. apply elem_of_cons in Hin as [[= -> ->]|Hin].
    + exists (state_of s w), [].
      destruct c1;
        apply for_each_frame in H as (_ & _ & _ & _ & _ & [evs2 Ht2]).
      * exists (evs1 ++ evs2). split.
        -- rewrite Ht2, Ht1. app_norm.
        -- intros Hc. by apply Hthrow in Hc.
      * exists (evs1 ++ EConsoleError reg :: evs2). split.
        -- rewrite Ht2. simpl. rewrite Ht1. app_norm.
        -- intros _. apply elem_of_app. right. left.
    + destruct c1;
        destruct (IH _ H Hin) as (seen & pre & post & Ht & Hc).
      * exists seen, (ECall s reg id0 args (state_of s w) :: evs1 ++ pre), post.
        split; [|done]. rewrite Ht, Ht1. app_norm.
      * exists seen,
          (ECall s reg id0 args (state_of s w) ::
             evs1 ++ EConsoleError reg :: pre),
          post.
        split; [|done]. rewrite Ht. simpl. rewrite Ht1. app_norm.
Qed.
End Loops.

Lemma proxy_set_ok fuel : setter_ok (proxy_set fuel).
Proof.
  induction fuel as [|fuel IH]; intros s prop v w c w'; simpl; [done|].
  destruct (store_objs w !! s) as [st|]; [|done].
  destruct (strict_eq _ _).
  - intros [= <- <-]. split; [done|]. apply frame_obj_assign.
  - destruct (for_each _ s (Some prop) _ _ _) as [[[] w2]|] eqn:E1; [| |done].
    + intros E2. apply (for_each_frame _ IH) in E1 as [_ F1].
      apply (for_each_frame _ IH) in E2 as [-> F2].
      split; [done|]. eauto with frame.
    + by apply (for_each_frame _ IH) in E1 as [? _].
Qed.

Lemma update_each_ok fuel s entries :
  forall w c w', update_each fuel s entries w = Some (c, w') ->
    c = Normal /\ frame w w'.
Proof.
  induction entries as [|[k v] rest IH]; simpl; intros w c w' H.
  - by inversion H.
  - destruct (proxy_set fuel s k v w) as [[[] w1]|] eqn:E; [| |done].
    + apply proxy_set_ok in E as [_ F1]. apply IH in H as [-> F2].
      eauto with frame.
    + by apply proxy_set_ok in E as [? _].
Qed.

(** ** Reading after writing *)

Lemma read_prop_alter h a prop v :
  is_Some (h !! a) -> read_prop (alter (insert prop v) a h) a prop = v.
Proof.
  intros [o Ho]. unfold read_prop.
  rewrite lookup_alter_eq, Ho; simpl. by rewrite lookup_insert_eq.
Qed.

Lemma state_of_obj_assign s st prop v w :
  store_objs w !! s = Some st -> is_Some (heap w !! stateObj st) ->
  state_of s (obj_assign (stateObj st) prop v w) = <[prop := v]> (state_of s w).
Proof.
  intros Hs [o Ho]. unfold state_of, obj_assign; simpl.
  by rewrite Hs, lookup_alter_eq, Ho.
Qed.

Lemma store_get_state_of s st prop w :
  store_objs w !! s = Some st ->
  store_get s prop w = default VUndef (state_of s w !! prop).
Proof.
  intros Hs. unfold store_get, state_of, read_prop. rewrite Hs.
  by destruct (heap w !! stateObj st).
Qed.

Lemma apply_entries_cons k v entries o :
  apply_entries ((k, v) :: entries) o = apply_entries entries (<[k := v]> o).
Proof. done. Qed.


Lemma apply_entries_notin entries k o :
  k ∉ entries.*1 -> apply_entries entries o !! k = o !! k.
Proof.
  revert o. induction entries as [|[k' v'] rest IH]; intros o Hk; [done|].
  rewrite apply_entries_cons. apply not_elem_of_cons in Hk as [Hne Hk].
  rewrite IH by done. by rewrite lookup_insert_ne.
Qed.

Lemma apply_entries_in entries k v o :
  NoDup entries.*1 -> (k, v) ∈ entries -> apply_entries entries o !! k = Some v.
Proof.
  revert o. induction entries as [|[k' v'] rest IH]; intros o Hnd Hin.
  - by apply elem_of_nil in Hin.
  - rewrite apply_entries_cons. apply NoDup_cons in Hnd as [Hk' Hnd].
    apply elem_of_cons in Hin as [[= -> ->]|Hin].
    + rewrite apply_entries_notin by done. by rewrite lookup_insert_eq.
    + by apply IH.
Qed.

(** ** Stores whose callbacks do not write *)

Lemma run_body_write_free set body w :
  Forall (fun c => c = CThrow) body ->
  run_body set body w = Some (if throws body then Throw else Normal, w).
Proof. intros H. destruct H as [|c rest -> _]; done. Qed.

Lemma for_each_passive set s reg args subs w :
  passive_subs subs ->
  for_each set s reg args subs w =
    Some (Normal, log_all (notify_events s reg args (state_of s w) subs) w).
Proof.
  revert w. induction subs as [|[id cb] rest IH]; intros w Hp; simpl.
  - by rewrite log_all_nil.
  - apply Forall_cons in Hp as [Hcb Hp]. simpl in Hcb.
    rewrite (run_body_write_free _ _ _ (Hcb _ _)).
    destruct (throws _); rewrite IH by done; rewrite !log_is_log_all,
      !log_all_log_all, ?state_of_log_all; by rewrite <- ?app_assoc.
Qed.

Lemma elem_of_notify_events s reg args seen subs s' reg' id args' seen' :
  ECall s' reg' id args' seen' ∈ notify_events s reg args seen subs <->
  s' = s /\ reg' = reg /\ args' = args /\ seen' = seen /\ id ∈ subs.*1.
Proof.
  unfold notify_events. rewrite list_elem_of_In, in_flat_map. split.
  - intros ([id0 cb] & Hin & Hev). apply list_elem_of_In in Hin, Hev.
    simpl in Hev. apply elem_of_cons in Hev as [[= -> -> -> -> ->]|Hev].
    + split_and!; try done. apply list_elem_of_fmap. by exists (id0, cb).
    + destruct (throws _); [|by apply elem_of_nil in Hev].
      apply list_elem_of_singleton in Hev. discriminate.
  - intros (-> & -> & -> & -> & Hid).
    apply list_elem_of_fmap in Hid as ([id0 cb] & -> & Hin).
    exists (id0, cb). split; [by apply list_elem_of_In|].
    apply list_elem_of_In. simpl. left.
Qed.

Lemma elem_of_set_events s st prop v w s' reg id args seen :
  ECall s' reg id args seen ∈ set_events s st prop v w <->
  strict_eq (read_prop (heap w) (stateObj st) prop) v = false /\
  s' = s /\ seen = state_of s (obj_assign (stateObj st) prop v w) /\
  ((reg = Some prop /\
    args = PropArgs v (read_prop (heap w) (stateObj st) prop) /\
    id ∈ prop_ids st prop) \/
   (reg = None /\ args = GlobalArgs prop v /\ id ∈ global_ids st)).
Proof.
  unfold set_events, prop_ids, global_ids.
  destruct (strict_eq _ _).
  - split; [by intros ?%elem_of_nil|]. by intros [? _].
  - rewrite elem_of_app, !elem_of_notify_events. split.
    + intros [(-> & -> & -> & -> & Hid)|(-> & -> & -> & -> & Hid)];
        split_and!; auto.
    + intros (_ & -> & -> & [(-> & -> & Hid)|(-> & -> & Hid)]);
        [left|right]; split_and!; auto.
Qed.

Section Passive.
Context (fuel : nat) (s : sid) (st : store) (Hp : passive st).

Lemma passive_prop_subs prop :
  passive_subs (default [] (propSubscribers st !! prop)).
Proof.
  destruct Hp as [_ Hprops].
  destruct (propSubscribers st !! prop) as [m|] eqn:E; simpl.
  - by apply (Hprops _ _ E).
  - constructor.
Qed.

Lemma proxy_set_passive prop v w :
  store_objs w !! s = Some st ->
  proxy_set (S fuel) s prop v w =
    Some (Normal, log_all (set_events s st prop v w)
                          (obj_assign (stateObj st) prop v w)).
Proof.
  intros Hs. simpl. rewrite Hs. unfold set_events.
  destruct (strict_eq _ _); [by rewrite log_all_nil|].
  rewrite for_each_passive by apply passive_prop_subs.
  rewrite for_each_passive by apply Hp.
  by rewrite log_all_log_all, state_of_log_all.
Qed.

(** A multi-key update, key by key: each call sees the entries up to and
    including its own applied. *)
Lemma update_each_passive entries w :
  store_objs w !! s = Some st -> is_Some (heap w !! stateObj st) ->
  exists w' evs,
    update_each (S fuel) s entries w = Some (Normal, w') /\
    state_of s w' = apply_entries entries (state_of s w) /\
    trace w' = trace w ++ evs /\
    forall s' reg id args seen, ECall s' reg id args seen ∈ evs ->
      exists done_ k v todo,
        entries = done_ ++ (k, v) :: todo /\
        s' = s /\ told_value args = v /\ (reg = Some k \/ reg = None) /\
        seen = apply_entries (done_ ++ [(k, v)]) (state_of s w).
Proof.
  revert w. induction entries as [|[k v] rest IH]; intros w Hs Ha.
  - exists w, []. simpl. split_and!; try done.
    + by rewrite app_nil_r.
    + by intros ????? ?%elem_of_nil.
  - cbn [update_each]. rewrite (proxy_set_passive _ _ _ Hs).
    set (w1 := log_all _ _).
    assert (Hs1 : store_objs w1 !! s = Some st) by done.
    assert (Ha1 : is_Some (heap w1 !! stateObj st)).
    { subst w1; simpl. rewrite lookup_alter_eq. by apply fmap_is_Some. }
    assert (Hst1 : state_of s w1 = <[k := v]> (state_of s w)).
    { subst w1. rewrite state_of_log_all. by apply state_of_obj_assign. }
    destruct (IH w1 Hs1 Ha1) as (w' & evs & Hrun & Hst & Htr & Hev).
    exists w', (set_events s st k v w ++ evs). split_and!; try done.
    + by rewrite Hst, Hst1.
    + rewrite Htr. subst w1; simpl. by rewrite app_assoc.
    + intros s' reg id args seen [Hin|Hin]%elem_of_app.
      * apply elem_of_set_events in Hin as (_ & -> & -> & Hcase).
        exists [], k, v, rest. split_and!; try done.
        -- by destruct Hcase as [(-> & -> & _)|(-> & -> & _)].
        -- destruct Hcase as [(-> & _)|(-> & _)]; auto.
      * apply Hev in Hin
          as (done_ & k' & v' & todo & -> & -> & Hv & Hreg & ->).
        exists ((k, v) :: done_), k', v', todo. split_and!; try done.
        by rewrite Hst1.
Qed.
End Passive.

(** ** Notification with callbacks that may write *)

Lemma proxy_set_calls fuel s st prop v w c w' :
  store_objs w !! s = Some st ->
  strict_eq (read_prop (heap w) (stateObj st) prop) v = false ->
  proxy_set fuel s prop v w = Some (c, w') ->
  forall reg args id cb,
    (reg = Some prop /\
     args = PropArgs v (read_prop (heap w) (stateObj st) prop) /\
     (id, cb) ∈ default [] (propSubscribers st !! prop)) \/
    (reg = None /\ args = GlobalArgs prop v /\ (id, cb) ∈ subscribers st) ->
  exists seen pre post,
    trace w' = trace w ++ pre ++ ECall s reg id args seen :: post /\
    (CThrow ∈ cb args seen -> EConsoleError reg ∈ post).
Proof.
  intros Hs Hne H reg args id cb Hcase.
  destruct fuel as [|fuel]; [done|]. simpl in H. rewrite Hs, Hne in H.
  destruct (for_each _ s (Some prop) _ _ _) as [[c1 w2]|] eqn:E1; [|done].
  pose proof (for_each_frame _ (proxy_set_ok fuel) _ _ _ _ _ _ _ E1)
    as (-> & _ & _ & _ & _ & [evs1 Ht1]).
  pose proof (for_each_frame _ (proxy_set_ok fuel) _ _ _ _ _ _ _ H)
    as (-> & _ & _ & _ & _ & [evs2 Ht2]).
  simpl in Ht1.
  destruct Hcase as [(-> & -> & Hin)|(-> & -> & Hin)].
  - destruct (for_each_calls _ (proxy_set_ok fuel) _ _ _ _ _ _ _ _ _ E1 Hin)
      as (seen & pre & post & Ht & Hc). simpl in Ht.
    exists seen, pre, (post ++ evs2). split.
    + rewrite Ht2, Ht. app_norm.
    + intros Hthrow. apply elem_of_app. left. auto.
  - destruct (for_each_calls _ (proxy_set_ok fuel) _ _ _ _ _ _ _ _ _ H Hin)
      as (seen & pre & post & Ht & Hc).
    exists seen, (evs1 ++ pre), post. split; [|done].
    rewrite Ht, Ht1. app_norm.
Qed.

(** ** Invariants of the module's calls *)

Lemma evolves_refl w : evolves w w.
Proof. unfold evolves. split_and!; eauto. Qed.

Lemma evolves_trans w1 w2 w3 : evolves w1 w2 -> evolves w2 w3 -> evolves w1 w3.
Proof.
  intros (Hn1 & Hr1 & Hs1 & Hd1) (Hn2 & Hr2 & Hs2 & Hd2).
  unfold evolves. split_and!.
  - lia.
  - eauto.
  - intros s st Hs. destruct (Hs1 _ _ Hs) as (st1 & Hst1 & Ha1).
    destruct (Hs2 _ _ Hst1) as (st2 & Hst2 & Ha2).
    exists st2. split; [done|congruence].
  - set_solver.
Qed.

Lemma frame_same_stores w w' : frame w w' -> same_stores w w'.
Proof. intros (?&?&?&Hd&?). unfold same_stores. rewrite Hd. done. Qed.

Lemma ids_ok_mono n n' m : n <= n' -> ids_ok n m -> ids_ok n' m.
Proof.
  intros Hle [Hlt Hnd]. split; [|done].
  eapply Forall_impl; [done|]. simpl. lia.
Qed.

Lemma wf_store_mono w w' st :
  dom (heap w) ⊆ dom (heap w') -> next_sym w <= next_sym w' ->
  wf_store w st -> wf_store w' st.
Proof.
  intros Hd Hn (Ha & Hg & Hp). split_and!.
  - apply elem_of_dom. apply elem_of_dom in Ha. set_solver.
  - by eapply ids_ok_mono.
  - intros prop m Hm. eapply ids_ok_mono; [done|]. by apply (Hp _ _ Hm).
Qed.

Lemma same_stores_evolves w w' : same_stores w w' -> evolves w w'.
Proof.
  intros (Hs & Hr & Hn & Hd). unfold evolves. rewrite Hs, Hr, Hn.
  split_and!; eauto.
Qed.

Lemma same_stores_wf w w' : same_stores w w' -> wf_world w -> wf_world w'.
Proof.
  intros (Hs & Hr & Hn & Hd) [Hst Hreg]. unfold wf_world. rewrite Hs, Hr.
  split; [|done]. intros s st Hl.
  eapply wf_store_mono; [done|lia|]. by apply (Hst _ _ Hl).
Qed.

Lemma same_stores_gone h w w' : same_stores w w' -> gone h w -> gone h w'.
Proof.
  intros (Hs & Hr & Hn & Hd) [Hlt Hout]. unfold gone. by rewrite Hs, Hn.
Qed.

(** [Symbol()] *)
Lemma evolves_new_symbol w : evolves w (new_symbol w).2.
Proof. unfold evolves; simpl. split_and!; eauto. Qed.

Lemma wf_new_symbol w : wf_world w -> wf_world (new_symbol w).2.
Proof.
  intros [Hst Hreg]. split; [|done]. intros s st Hl.
  eapply (wf_store_mono w); [done|simpl; lia|]. by apply (Hst _ _ Hl).
Qed.

Lemma gone_new_symbol h w : gone h w -> gone h (new_symbol w).2.
Proof. intros [Hlt Hout]. split; [simpl; lia|done]. Qed.

(** Replacing the registries of a store. *)
Lemma evolves_set_store w s st st' :
  store_objs w !! s = Some st -> stateObj st' = stateObj st ->
  evolves w (set_store s st' w).
Proof.
  intros Hs Ha. unfold evolves; simpl. split_and!; eauto.
  intros s0 st0 Hs0. destruct (decide (s0 = s)) as [->|Hne].
  - exists st'. rewrite lookup_insert_eq. split; [done|congruence].
  - exists st0. by rewrite lookup_insert_ne.
Qed.

Lemma wf_set_store w s st st' :
  store_objs w !! s = Some st -> wf_store w st' ->
  wf_world w -> wf_world (set_store s st' w).
Proof.
  intros Hs Hst' [Hst Hreg]. split; simpl.
  - apply map_Forall_insert_2; [done|]. intros s0 st0 Hl. by apply (Hst _ _ Hl).
  - intros name s0 Hl. destruct (decide (s0 = s)) as [->|Hne].
    + by rewrite lookup_insert_eq.
    + rewrite lookup_insert_ne by done. by apply (Hreg _ _ Hl).
Qed.

Lemma gone_set_store h w s st' :
  (handle_store h = s -> handle_id h ∉ (registry st' (handle_reg h)).*1) ->
  gone h w -> gone h (set_store s st' w).
Proof.
  intros Hnew [Hlt Hout]. split; [done|]. simpl. intros st0 Hl.
  destruct (decide (handle_store h = s)) as [Heq|Hne].
  - rewrite Heq, lookup_insert_eq in Hl. injection Hl as <-. auto.
  - rewrite lookup_insert_ne in Hl by done. auto.
Qed.

Lemma ids_ok_snoc n cb m : ids_ok n m -> ids_ok (S n) (map_set n cb m).
Proof.
  intros [Hlt Hnd]. unfold ids_ok, map_set. rewrite fmap_app. simpl. split.
  - apply Forall_app. split.
    + eapply Forall_impl; [done|]. simpl. lia.
    + repeat constructor.
  - apply NoDup_app. split_and!; [done| |apply NoDup_singleton].
    intros id Hin ->%list_elem_of_singleton.
    rewrite Forall_forall in Hlt. apply Hlt in Hin. lia.
Qed.

Lemma map_delete_ids id m : (map_delete id m).*1 = filter (fun i => i <> id) m.*1.
Proof.
  unfold map_delete. induction m as [|[i cb] rest IH]; [done|].
  rewrite fmap_cons, !filter_cons. simpl.
  destruct (decide (i <> id)); by rewrite ?fmap_cons, IH.
Qed.

Lemma ids_ok_delete n id m : ids_ok n m -> ids_ok n (map_delete id m).
Proof.
  intros [Hlt Hnd]. unfold ids_ok. rewrite map_delete_ids. split.
  - rewrite Forall_forall in Hlt. apply Forall_forall.
    intros i [_ Hi]%list_elem_of_filter. auto.
  - by apply NoDup_filter.
Qed.

Lemma map_delete_absent id m : id ∉ m.*1 -> map_delete id m = m.
Proof.
  unfold map_delete. induction m as [|[i cb] rest IH]; [done|].
  rewrite fmap_cons, not_elem_of_cons, filter_cons. simpl. intros [Hne Hout].
  destruct (decide (i <> id)); [|done]. by rewrite IH.
Qed.

Lemma map_delete_gone id m : id ∉ (map_delete id m).*1.
Proof.
  rewrite map_delete_ids, list_elem_of_filter. by intros [? _].
Qed.

(** Deleting a symbol that occurs once takes out one entry and keeps the
    others where they are. *)
Lemma map_delete_one id m :
  NoDup m.*1 -> id ∈ m.*1 ->
  exists before cb after,
    m = before ++ (id, cb) :: after /\ map_delete id m = before ++ after.
Proof.
  induction m as [|[i cb] rest IH]; intros Hnd Hin.
  - by apply elem_of_nil in Hin.
  - rewrite fmap_cons in Hnd, Hin. simpl in *.
    apply NoDup_cons in Hnd as [Hi Hnd].
    unfold map_delete. rewrite filter_cons. simpl.
    destruct (decide (i <> id)) as [Hne|Heq].
    + apply elem_of_cons in Hin as [->|Hin]; [done|].
      destruct (IH Hnd Hin) as (before & cb0 & after & -> & Hdel).
      exists ((i, cb) :: before), cb0, after. split; [done|].
      simpl. f_equal. apply Hdel.
    + assert (i = id) as -> by (destruct (decide (i = id)); [done|tauto]).
      exists [], cb, rest. split; [done|]. simpl.
      by apply map_delete_absent.
Qed.

Lemma store_on_eq s prop cb w :
  store_on s prop cb w =
  match store_objs w !! s with
  | None => None
  | Some st =>
      Some (UnsubProp s prop (next_sym w),
            set_store s
              {| stateObj := stateObj st; subscribers := subscribers st;
                 propSubscribers :=
                   <[prop := map_set (next_sym w) cb
                               (default [] (propSubscribers st !! prop))]>
                     (propSubscribers st) |}
              (new_symbol w).2)
  end.
Proof.
  unfold store_on. destruct (store_objs w !! s) as [st|]; [|done]. simpl.
  destruct (decide (is_Some (propSubscribers st !! prop))) as [H|H]; [done|].
  apply eq_None_not_Some in H.
  by rewrite lookup_insert_eq, insert_insert_eq, H.
Qed.

Lemma registry_global m ps a reg :
  registry {| stateObj := a; subscribers := m; propSubscribers := ps |} reg =
  match reg with None => m | Some prop => default [] (ps !! prop) end.
Proof. done. Qed.

Lemma subscribe_invariants s cb w h w' :
  store_subscribe s cb w = Some (h, w') ->
  evolves w w' /\ (wf_world w -> wf_world w') /\
  (forall h0, gone h0 w -> gone h0 w').
Proof.
  unfold store_subscribe. destruct (store_objs w !! s) as [st|] eqn:Hs; [|done].
  simpl. intros [= <- <-]. split_and!.
  - eapply evolves_trans; [apply evolves_new_symbol|].
    by eapply evolves_set_store.
  - intros Hwf. pose proof Hwf as [Hst _]. destruct (Hst _ _ Hs) as (Ha & Hg & Hp).
    eapply wf_set_store; [done| |by apply wf_new_symbol].
    split_and!; simpl; [done|by apply ids_ok_snoc|].
    intros prop m Hm. eapply ids_ok_mono; [|by apply (Hp _ _ Hm)]. lia.
  - intros h0 Hgone. apply gone_set_store; [|by apply gone_new_symbol].
    intros Heq. destruct Hgone as [Hlt Hout]. rewrite Heq in Hout.
    specialize (Hout _ Hs). rewrite registry_global.
    destruct (handle_reg h0); [done|]. simpl in Hout.
    unfold map_set. rewrite fmap_app, elem_of_app. simpl.
    intros [?|?%list_elem_of_singleton]; [done|lia].
Qed.

Lemma on_invariants s prop cb w h w' :
  store_on s prop cb w = Some (h, w') ->
  evolves w w' /\ (wf_world w -> wf_world w') /\
  (forall h0, gone h0 w -> gone h0 w').
Proof.
  rewrite store_on_eq. destruct (store_objs w !! s) as [st|] eqn:Hs; [|done].
  intros [= <- <-]. split_and!.
  - eapply evolves_trans; [apply evolves_new_symbol|].
    by eapply evolves_set_store.
  - intros Hwf. pose proof Hwf as [Hst _]. destruct (Hst _ _ Hs) as (Ha & Hg & Hp).
    eapply wf_set_store; [done| |by apply wf_new_symbol].
    split_and!; simpl; [done|eapply ids_ok_mono; [|done]; lia|].
    apply map_Forall_insert_2.
    + apply ids_ok_snoc. destruct (propSubscribers st !! prop) as [m|] eqn:Hm.
      * by apply (Hp _ _ Hm).
      * split; constructor.
    + intros p m Hm. eapply ids_ok_mono; [|by apply (Hp _ _ Hm)]. lia.
  - intros h0 Hgone. apply gone_set_store; [|by apply gone_new_symbol].
    intros Heq. destruct Hgone as [Hlt Hout]. rewrite Heq in Hout.
    specialize (Hout _ Hs). rewrite registry_global.
    destruct (handle_reg h0) as [p|]; [|done]. simpl in Hout.
    destruct (decide (p = prop)) as [->|Hne].
    + rewrite lookup_insert_eq. simpl.
      unfold map_set. rewrite fmap_app, elem_of_app. simpl.
      intros [?|?%list_elem_of_singleton]; [done|lia].
    + by rewrite lookup_insert_ne.
Qed.

Lemma unsub_invariants h w :
  evolves w (call_unsub h w) /\ (wf_world w -> wf_world (call_unsub h w)) /\
  (forall h0, gone h0 w -> gone h0 (call_unsub h w)).
Proof.
  destruct h as [s id|s prop id]; simpl.
  - destruct (store_objs w !! s) as [st|] eqn:Hs;
      [|split_and!; auto using evolves_refl].
    split_and!.
    + by eapply evolves_set_store.
    + intros Hwf. pose proof Hwf as [Hst _].
      destruct (Hst _ _ Hs) as (Ha & Hg & Hp).
      eapply wf_set_store; [done| |done].
      split_and!; simpl; [done|by apply ids_ok_delete|done].
    + intros h0 Hgone. apply gone_set_store; [|done].
      intros Heq. destruct Hgone as [Hlt Hout]. rewrite Heq in Hout.
      specialize (Hout _ Hs). rewrite registry_global.
      destruct (handle_reg h0); [done|]. simpl in Hout.
      rewrite map_delete_ids, list_elem_of_filter. by intros [_ ?].
  - destruct (store_objs w !! s) as [st|] eqn:Hs;
      [|split_and!; auto using evolves_refl].
    destruct (propSubscribers st !! prop) as [m|] eqn:Hm;
      [|split_and!; auto using evolves_refl].
    split_and!.
    + by eapply evolves_set_store.
    + intros Hwf. pose proof Hwf as [Hst _].
      destruct (Hst _ _ Hs) as (Ha & Hg & Hp).
      eapply wf_set_store; [done| |done].
      split_and!; simpl; [done|done|].
      apply map_Forall_insert_2; [|done].
      apply ids_ok_delete. by apply (Hp _ _ Hm).
    + intros h0 Hgone. apply gone_set_store; [|done].
      intros Heq. destruct Hgone as [Hlt Hout]. rewrite Heq in Hout.
      specialize (Hout _ Hs). rewrite registry_global.
      destruct (handle_reg h0) as [p|]; [|done]. simpl in Hout.
      destruct (decide (p = prop)) as [->|Hne].
      * rewrite lookup_insert_eq. simpl. rewrite Hm in Hout. simpl in Hout.
        rewrite map_delete_ids, list_elem_of_filter. by intros [_ ?].
      * by rewrite lookup_insert_ne.
Qed.

Lemma spread_fresh o w : heap w !! (spread o w).1 = None.
Proof. simpl. apply not_elem_of_dom, is_fresh. Qed.

Lemma getState_same_stores s w r w' :
  store_getState s w = Some (r, w') -> same_stores w w'.
Proof.
  unfold store_getState. destruct (store_objs w !! s); [|done].
  intros [= <- <-]. unfold same_stores; simpl. split_and!; try done.
  rewrite dom_insert_L. set_solver.
Qed.

Lemma createStore_existing name initialState w s :
  stores w !! name = Some s ->
  createStore name initialState w = (s, log (EConsoleWarn name) w).
Proof. intros H. unfold createStore. by rewrite H. Qed.

Lemma createStore_new name initialState w :
  stores w !! name = None ->
  let source := match initialState with
                | Some a => default ∅ (heap w !! a)
                | None => ∅
                end in
  let a := fresh (dom (heap w)) in
  let s := fresh (dom (store_objs w)) in
  createStore name initialState w =
    (s, {| heap := <[a := source]> (heap w);
           store_objs := <[s := {| stateObj := a; subscribers := [];
                                   propSubscribers := ∅ |}]> (store_objs w);
           stores := <[name := s]> (stores w);
           next_sym := next_sym w; trace := trace w |}).
Proof. intros H. unfold createStore. by rewrite H. Qed.

Lemma createStore_invariants name initialState w :
  let w' := (createStore name initialState w).2 in
  evolves w w' /\ (wf_world w -> wf_world w') /\
  (forall h0, gone h0 w -> gone h0 w').
Proof.
  destruct (stores w !! name) as [s|] eqn:Hname.
  - rewrite (createStore_existing _ _ _ _ Hname). simpl.
    pose proof (frame_same_stores _ _ (frame_log (EConsoleWarn name) w)) as Hss.
    split_and!.
    + by apply same_stores_evolves.
    + by apply same_stores_wf.
    + intros h0. by apply same_stores_gone.
  - rewrite (createStore_new _ _ _ Hname). simpl.
    set (a := fresh (dom (heap w))). set (s := fresh (dom (store_objs w))).
    assert (Hs : store_objs w !! s = None) by apply not_elem_of_dom, is_fresh.
    split_and!.
    + unfold evolves; simpl. split_and!.
      * done.
      * intros name0 s0 H0. rewrite lookup_insert_ne; [done|congruence].
      * intros s0 st0 H0. exists st0. rewrite lookup_insert_ne; [done|congruence].
      * rewrite dom_insert_L. set_solver.
    + intros [Hst Hreg]. split; simpl.
      * apply map_Forall_insert_2.
        -- split_and!; simpl.
           ++ by rewrite lookup_insert_eq.
           ++ split; constructor.
           ++ apply map_Forall_empty.
        -- intros s0 st0 H0. eapply (wf_store_mono w); simpl.
           ++ rewrite dom_insert_L. set_solver.
           ++ done.
           ++ by apply (Hst _ _ H0).
      * apply map_Forall_insert_2.
        -- by rewrite lookup_insert_eq.
        -- intros name0 s0 H0. specialize (Hreg _ _ H0). simpl in Hreg.
           destruct (decide (s0 = s)) as [->|Hne].
           ++ by rewrite lookup_insert_eq.
           ++ by rewrite lookup_insert_ne.
    + intros h0 [Hlt Hout]. split; [done|]. simpl. intros st0 H0.
      destruct (decide (handle_store h0 = s)) as [Heq|Hne].
      * rewrite Heq, lookup_insert_eq in H0. injection H0 as <-.
        rewrite registry_global. destruct (handle_reg h0); simpl;
          rewrite ?lookup_empty; simpl; apply not_elem_of_nil.
      * rewrite lookup_insert_ne in H0 by done. auto.
Qed.

Lemma step_invariants fuel o w w' :
  step fuel o w = Some w' ->
  evolves w w' /\ (wf_world w -> wf_world w') /\
  (forall h0, gone h0 w -> gone h0 w').
Proof.
  assert (Hsame : same_stores w w' ->
    evolves w w' /\ (wf_world w -> wf_world w') /\
    (forall h0, gone h0 w -> gone h0 w')).
  { intros Hss. split_and!.
    - by apply same_stores_evolves.
    - by apply same_stores_wf.
    - intros h0. by apply same_stores_gone. }
  destruct o as [s prop v|s u|s cb|s prop cb|h|s|name initialState|a prop v];
    simpl.
  - unfold store_set.
    destruct (proxy_set fuel s prop v w) as [[[] w1]|] eqn:E; simpl; [| |done].
    + intros [= <-]. apply Hsame, frame_same_stores.
      by apply proxy_set_ok in E as [_ ?].
    + by apply proxy_set_ok in E as [? _].
  - unfold store_update.
    destruct (update_each fuel s _ w) as [[c w1]|] eqn:E; simpl; [|done].
    intros [= <-]. apply Hsame, frame_same_stores.
    by apply update_each_ok in E as [_ ?].
  - destruct (store_subscribe s cb w) as [[h w1]|] eqn:E; simpl; [|done].
    intros [= <-]. by eapply subscribe_invariants.
  - destruct (store_on s prop cb w) as [[h w1]|] eqn:E; simpl; [|done].
    intros [= <-]. by eapply on_invariants.
  - intros [= <-]. apply unsub_invariants.
  - destruct (store_getState s w) as [[r w1]|] eqn:E; simpl; [|done].
    intros [= <-]. by eapply Hsame, getState_same_stores.
  - intros [= <-]. apply createStore_invariants.
  - intros [= <-]. apply Hsame, frame_same_stores, frame_obj_assign.
Qed.

Lemma run_invariants fuel ops : forall w w',
  run fuel ops w = Some w' ->
  evolves w w' /\ (wf_world w -> wf_world w') /\
  (forall h0, gone h0 w -> gone h0 w').
Proof.
  induction ops as [|o rest IH]; simpl; intros w w' H.
  - injection H as <-. split_and!; auto using evolves_refl.
  - destruct (step fuel o w) as [w1|] eqn:E; [|done].
    destruct (step_invariants _ _ _ _ E) as (He1 & Hw1 & Hg1).
    destruct (IH _ _ H) as (He2 & Hw2 & Hg2).
    split_and!; eauto using evolves_trans.
Qed.

Lemma wf_empty_world : wf_world empty_world.
Proof. split; apply map_Forall_empty. Qed.

Lemma wf_module_loaded : wf_world module_loaded.
Proof.
  unfold module_loaded, load_module.
  destruct (spread ∅ empty_world) as [a w] eqn:E.
  apply createStore_invariants.
  injection E as <- <-. split; apply map_Forall_empty.
Qed.

(** ** Reading back what was written (C1) *)

Lemma getState_reads s st w prop :
  store_objs w !! s = Some st ->
  snapshot_read s prop w = store_get s prop w.
Proof.
  intros Hs. unfold snapshot_read, store_getState, store_get, read_prop.
  rewrite Hs. simpl. rewrite lookup_insert_eq.
  by destruct (heap w !! stateObj st).
Qed.

Lemma store_get_log_all s prop es w :
  store_get s prop (log_all es w) = store_get s prop w.
Proof. done. Qed.

(** C1, as the code has it: in a store whose callbacks only return or
    throw, and for every key but [__proto__], [get(prop)] and
    [getState()[prop]] after [set(prop, v)] give [v], and after
    [update(obj)] they give the value of every entry of [obj].  There is
    no function-style update: [update(f)] does not call [f], it writes the
    own enumerable properties of the function object, so for a function
    without such properties it applies nothing and leaves the world as it
    is. *)
Theorem set_then_get fuel s st w prop v entries f own :
  store_objs w !! s = Some st ->
  is_Some (heap w !! stateObj st) ->
  passive st ->
  NoDup entries.*1 ->
  prop <> "__proto__" ->
  "__proto__" ∉ entries.*1 ->
  (exists w',
      store_set (S fuel) s prop v w = Some (Normal, v, w') /\
      store_get s prop w' = v /\ snapshot_read s prop w' = v) /\
  (exists w',
      store_update (S fuel) s (UObject entries) w = Some (Normal, w') /\
      forall k x, (k, x) ∈ entries ->
        store_get s k w' = x /\ snapshot_read s k w' = x) /\
  store_update (S fuel) s (UFunction f own) w =
    store_update (S fuel) s (UObject own) w /\
  store_update (S fuel) s (UFunction f []) w = Some (Normal, w).
Proof.
  intros Hs Ha Hp Hnd _ _. split_and!.
  - unfold store_set.
    rewrite (proxy_set_passive _ _ _ Hp _ _ _ Hs).
    eexists. split; [done|].
    assert (Hget : store_get s prop
              (log_all (set_events s st prop v w)
                 (obj_assign (stateObj st) prop v w)) = v).
    { rewrite store_get_log_all. unfold store_get. simpl. rewrite Hs.
      by apply read_prop_alter. }
    split; [done|]. by rewrite (getState_reads _ st).
  - destruct (update_each_passive fuel s st Hp entries w Hs Ha)
      as (w' & evs & Hrun & Hst & _).
    exists w'. split; [done|]. intros k x Hin.
    apply update_each_ok in Hrun as (_ & Hobjs & _).
    assert (Hs' : store_objs w' !! s = Some st) by by rewrite Hobjs.
    rewrite (getState_reads _ st) by done.
    rewrite (store_get_state_of _ st) by done.
    by rewrite Hst, (apply_entries_in _ _ x).
  - done.
  - done.
Qed.

Lemma counter_store_passive : passive counter_store.
Proof.
  split.
  - repeat constructor.
  - apply map_Forall_singleton. repeat constructor.
Qed.

Lemma set_then_get_witness :
  (exists w',
      store_set 1 app "count" (VNum 1) counter_world =
        Some (Normal, VNum 1, w') /\
      store_get app "count" w' = VNum 1 /\
      snapshot_read app "count" w' = VNum 1) /\
  (exists w',
      store_update 1 app
        (UObject [("count", VNum 1); ("theme", VStr "dark")]) counter_world =
        Some (Normal, w') /\
      forall k x, (k, x) ∈ [("count", VNum 1); ("theme", VStr "dark")] ->
        store_get app k w' = x /\ snapshot_read app k w' = x) /\
  store_update 1 app
    (UFunction (fun _ => [("count", VNum 1)]) [("theme", VStr "dark")])
    counter_world =
    store_update 1 app (UObject [("theme", VStr "dark")]) counter_world /\
  store_update 1 app (UFunction (fun _ => [("count", VNum 1)]) []) counter_world =
    Some (Normal, counter_world).
Proof.
  apply (set_then_get 0 app counter_store counter_world).
  - vm_compute. reflexivity.
  - vm_compute. eexists. reflexivity.
  - apply counter_store_passive.
  - apply (bool_decide_unpack _). vm_compute. exact I.
  - done.
  - apply (bool_decide_unpack _). vm_compute. exact I.
Defined.

(** C1 as stated fails twice: a subscriber that writes to the property it
    watches makes [get] return its value, not the one that was set; and a
    function given to [update] is not called, so nothing is set. *)
Lemma set_then_get_fails :
  (exists w', store_set 3 app "a" (VNum 1) reset_world = Some (Normal, VNum 1, w') /\
              store_get app "a" w' = VNum 0 /\ store_get app "a" w' <> VNum 1) /\
  (exists w', store_update 3 app (UFunction (fun _ => [("count", VNum 1)]) [])
                counter_world = Some (Normal, w') /\
              store_get app "count" w' = VUndef /\
              store_get app "count" w' <> VNum 1).
Proof.
  split; eexists; (split; [vm_compute; reflexivity|]); split;
    vm_compute; congruence.
Qed.

(** ** Which subscribers a write notifies (C2) *)





(** ** Writes that change nothing (C3) *)









(** ** What callbacks see during a multi-key update (C4) *)





Lemma pair_store_passive : passive pair_store.
Proof.
  split; [constructor|]. apply map_Forall_singleton. repeat constructor.
Qed.



(** ** Callbacks that throw (C5) *)

(** Errors thrown by callbacks, for the string keys of this model (line 54
    builds its report from the key, which fails for a symbol): a write
    that returns does not end with an exception, whatever its callbacks
    do; when it changes the value, every property subscriber of the key
    and every global subscriber is called with that change, also after a
    callback before it has thrown, and a callback whose body throws is
    followed by a [console.error] report.  With callbacks that only
    return or throw the write returns for any fuel. *)
Theorem callback_errors_are_isolated fuel s st w prop v u :
  store_objs w !! s = Some st ->
  (forall c w', proxy_set (S fuel) s prop v w = Some (c, w') ->
     c = Normal /\
     (strict_eq (store_get s prop w) v = false ->
      forall reg args id cb,
        (reg = Some prop /\ args = PropArgs v (store_get s prop w) /\
         (id, cb) ∈ registry st reg) \/
        (reg = None /\ args = GlobalArgs prop v /\ (id, cb) ∈ registry st reg) ->
        exists seen pre post,
          trace w' = trace w ++ pre ++ ECall s reg id args seen :: post /\
          (CThrow ∈ cb args seen -> EConsoleError reg ∈ post))) /\
  (forall c w', store_update (S fuel) s u w = Some (c, w') -> c = Normal) /\
  (passive st ->
     exists w', proxy_set (S fuel) s prop v w = Some (Normal, w')).
Proof.
  intros Hs. split_and!.
  - intros c w' Hrun. split; [by apply proxy_set_ok in Hrun as [? _]|].
    unfold store_get. rewrite Hs. intros Hne reg args id cb Hcase.
    eapply proxy_set_calls; [done..|].
    destruct Hcase as [(-> & -> & Hin)|(-> & -> & Hin)]; [left|right]; done.
  - intros c w' Hrun. by apply update_each_ok in Hrun as [? _].
  - intros Hp. rewrite (proxy_set_passive _ _ _ Hp _ _ _ Hs). by eexists.
Qed.

Lemma faulty_store_passive : passive faulty_store.
Proof.
  split; [repeat constructor|]. apply map_Forall_singleton. repeat constructor.
Qed.

(** In [faulty_world] the first subscriber of ["count"] throws: it is
    reported, and the second one is called all the same. *)
Lemma callback_errors_are_isolated_witness :
  exists w',
    proxy_set 1 app "count" (VNum 1) faulty_world = Some (Normal, w') /\
    (exists seen pre post,
       trace w' = trace faulty_world ++
         pre ++ ECall app (Some "count") 0 (PropArgs (VNum 1) VUndef) seen :: post /\
       EConsoleError (Some "count") ∈ post) /\
    (exists seen pre post,
       trace w' = trace faulty_world ++
         pre ++ ECall app (Some "count") 1 (PropArgs (VNum 1) VUndef) seen :: post).
Proof.
  destruct (callback_errors_are_isolated 0 app faulty_store faulty_world
              "count" (VNum 1) (UObject []))
    as (Hcalls & _ & Hruns); [vm_compute; reflexivity|].
  destruct (Hruns faulty_store_passive) as [w' Hrun].
  destruct (Hcalls _ _ Hrun) as [_ Hall].
  specialize (Hall eq_refl).
  exists w'. split; [done|]. split.
  - destruct (Hall (Some "count") (PropArgs (VNum 1) VUndef) 0 thrower)
      as (seen & pre & post & Ht & Herr).
    { left. split_and!; [done|done|]. vm_compute. left. }
    exists seen, pre, post. split; [done|]. apply Herr. left.
  - destruct (Hall (Some "count") (PropArgs (VNum 1) VUndef) 1 quiet)
      as (seen & pre & post & Ht & _).
    { left. split_and!; [done|done|]. vm_compute. right. left. }
    by exists seen, pre, post.
Defined.

(** The run behind the witness: the first property subscriber and the
    first global subscriber throw, each is reported, and the second of
    each kind is still called. *)
Lemma faulty_world_trace :
  exists w',
    store_set 1 app "count" (VNum 1) faulty_world = Some (Normal, VNum 1, w') /\
    trace w' =
      [ECall app (Some "count") 0 (PropArgs (VNum 1) VUndef) {["count" := VNum 1]};
       EConsoleError (Some "count");
       ECall app (Some "count") 1 (PropArgs (VNum 1) VUndef) {["count" := VNum 1]};
       ECall app None 2 (GlobalArgs "count" (VNum 1)) {["count" := VNum 1]};
       EConsoleError None;
       ECall app None 3 (GlobalArgs "count" (VNum 1)) {["count" := VNum 1]}].
Proof. eexists. split; vm_compute; reflexivity. Qed.

(** ** Unsubscribing (C6) *)

Lemma store_eta st :
  {| stateObj := stateObj st; subscribers := subscribers st;
     propSubscribers := propSubscribers st |} = st.
Proof. by destruct st. Qed.

Lemma set_store_same s st w : store_objs w !! s = Some st -> set_store s st w = w.
Proof.
  intros Hs. unfold set_store. rewrite insert_id by done. apply world_eta.
Qed.

Lemma subscribe_at_handle s reg cb w h w1 :
  subscribe_at s reg cb w = Some (h, w1) ->
  handle_store h = s /\ handle_reg h = reg /\ handle_id h = next_sym w /\
  next_sym w1 = S (next_sym w) /\ is_Some (store_objs w !! s).
Proof.
  destruct reg as [prop|]; simpl.
  - rewrite store_on_eq. destruct (store_objs w !! s); [|done].
    by intros [= <- <-].
  - unfold store_subscribe. destruct (store_objs w !! s); [|done].
    by intros [= <- <-].
Qed.

Lemma subscribe_at_invariants s reg cb w h w1 :
  subscribe_at s reg cb w = Some (h, w1) ->
  evolves w w1 /\ (wf_world w -> wf_world w1).
Proof.
  destruct reg as [prop|]; simpl; intros H.
  - by apply on_invariants in H as (? & ? & _).
  - by apply subscribe_invariants in H as (? & ? & _).
Qed.

(** What one call of an unsubscribe function does to its store. *)
Lemma call_unsub_store h w st :
  store_objs w !! handle_store h = Some st ->
  exists st',
    store_objs (call_unsub h w) = <[handle_store h := st']> (store_objs w) /\
    stateObj st' = stateObj st /\
    registry st' (handle_reg h) =
      map_delete (handle_id h) (registry st (handle_reg h)) /\
    forall reg', reg' <> handle_reg h -> registry st' reg' = registry st reg'.
Proof.
  destruct h as [s id|s prop id]; simpl; intros Hs; rewrite Hs.
  - eexists. split; [done|]. split_and!; [done|done|].
    by intros [p|] Hne.
  - destruct (propSubscribers st !! prop) as [m|] eqn:Hm.
    + eexists. split; [done|]. split_and!; simpl; [done| |].
      * by rewrite lookup_insert_eq.
      * intros [p|] Hne; [|done]. simpl.
        rewrite lookup_insert_ne; [done|congruence].
    + exists st. split_and!; [by rewrite insert_id|done| |done].
      simpl. by rewrite Hm.
Qed.

Lemma call_unsub_frame h w :
  heap (call_unsub h w) = heap w /\ stores (call_unsub h w) = stores w /\
  trace (call_unsub h w) = trace w /\ next_sym (call_unsub h w) = next_sym w /\
  forall s', s' <> handle_store h ->
    store_objs (call_unsub h w) !! s' = store_objs w !! s'.
Proof.
  destruct h as [s id|s prop id]; simpl.
  - destruct (store_objs w !! s); simpl; split_and!; try done.
    intros s' Hne. by rewrite lookup_insert_ne.
  - destruct (store_objs w !! s) as [st|]; [|done].
    destruct (propSubscribers st !! prop); simpl; split_and!; try done.
    intros s' Hne. by rewrite lookup_insert_ne.
Qed.

(** Unsubscribing what is not registered changes nothing. *)
Lemma unsub_noop h w :
  (forall st, store_objs w !! handle_store h = Some st ->
     handle_id h ∉ (registry st (handle_reg h)).*1) ->
  call_unsub h w = w.
Proof.
  destruct h as [s id|s prop id]; simpl; intros Hout.
  - destruct (store_objs w !! s) as [st|] eqn:Hs; [|done].
    rewrite map_delete_absent by by apply Hout.
    rewrite store_eta. by apply set_store_same.
  - destruct (store_objs w !! s) as [st|] eqn:Hs; [|done].
    specialize (Hout _ eq_refl). simpl in Hout.
    destruct (propSubscribers st !! prop) as [m|] eqn:Hm; [|done].
    simpl in Hout. rewrite map_delete_absent by done.
    rewrite insert_id by done. rewrite store_eta. by apply set_store_same.
Qed.

Lemma unsub_absent h w st :
  store_objs (call_unsub h w) !! handle_store h = Some st ->
  handle_id h ∉ (registry st (handle_reg h)).*1.
Proof.
  intros Hst.
  destruct (store_objs w !! handle_store h) as [st0|] eqn:Hs.
  - destruct (call_unsub_store _ _ _ Hs) as (st' & Hobjs & _ & Hreg & _).
    rewrite Hobjs, lookup_insert_eq in Hst. injection Hst as <-.
    rewrite Hreg. apply map_delete_gone.
  - destruct h as [s id|s prop id]; simpl in *; rewrite Hs in Hst; congruence.
Qed.

Lemma without_entry_delete id m :
  NoDup m.*1 -> without_entry id m (map_delete id m).
Proof.
  intros Hnd. destruct (decide (id ∈ m.*1)) as [Hin|Hout].
  - right. destruct (map_delete_one _ _ Hnd Hin) as (before & cb & after & ? & ?).
    by exists before, cb, after.
  - left. split; [done|]. by apply map_delete_absent.
Qed.

Lemma elem_of_map_delete id m id' cb :
  (id', cb) ∈ m -> id' <> id -> (id', cb) ∈ map_delete id m.
Proof. intros Hin Hne. unfold map_delete. by apply list_elem_of_filter. Qed.

Lemma wf_registry_NoDup w s st reg :
  wf_world w -> store_objs w !! s = Some st -> NoDup (registry st reg).*1.
Proof.
  intros [Hst _] Hs. destruct (Hst _ _ Hs) as (_ & [_ Hg] & Hp).
  destruct reg as [prop|]; simpl; [|done].
  destruct (propSubscribers st !! prop) as [m|] eqn:Hm; simpl.
  - by destruct (Hp _ _ Hm).
  - constructor.
Qed.

(** A registered callback is called by a write that changes its key. *)
Lemma registered_is_called fuel s st w prop v c w' reg args id cb :
  store_objs w !! s = Some st ->
  (id, cb) ∈ registry st reg ->
  strict_eq (store_get s prop w) v = false ->
  (reg = Some prop /\ args = PropArgs v (store_get s prop w)) \/
  (reg = None /\ args = GlobalArgs prop v) ->
  proxy_set fuel s prop v w = Some (c, w') ->
  exists seen pre post,
    trace w' = trace w ++ pre ++ ECall s reg id args seen :: post.
Proof.
  intros Hs Hin Hne Hcase Hrun. unfold store_get in *. rewrite Hs in *.
  destruct (proxy_set_calls _ _ _ _ _ _ _ _ Hs Hne Hrun reg args id cb)
    as (seen & pre & post & Ht & _).
  - destruct Hcase as [[-> ->]|[-> ->]]; [left|right]; done.
  - by exists seen, pre, post.
Qed.

(** C6: let [h] be the function returned by [subscribe] or [on].  Whatever
    calls are made in between, calling [h] takes the one entry of its
    symbol out of its registry and keeps every other entry, in every
    registry of every store, where it is (so a second subscription of the
    same callback on the same property stays registered and is still
    called by a changing write); calling [h] again at once, or after any
    further calls, leaves the world as it is. *)
Theorem unsubscribe_is_idempotent w s reg cb h w1 fuel ops w2 fuel' ops' w4 :
  wf_world w ->
  subscribe_at s reg cb w = Some (h, w1) ->
  run fuel ops w1 = Some w2 ->
  run fuel' ops' (call_unsub h w2) = Some w4 ->
  let w3 := call_unsub h w2 in
  call_unsub h w3 = w3 /\
  call_unsub h w4 = w4 /\
  (heap w3 = heap w2 /\ stores w3 = stores w2 /\ trace w3 = trace w2 /\
   forall s', s' <> s -> store_objs w3 !! s' = store_objs w2 !! s') /\
  exists st2 st3,
    store_objs w2 !! s = Some st2 /\ store_objs w3 !! s = Some st3 /\
    stateObj st3 = stateObj st2 /\
    without_entry (handle_id h) (registry st2 reg) (registry st3 reg) /\
    (forall reg', reg' <> reg -> registry st3 reg' = registry st2 reg') /\
    (forall reg' id' cb',
       (id', cb') ∈ registry st2 reg' -> reg' <> reg \/ id' <> handle_id h ->
       (id', cb') ∈ registry st3 reg' /\
       forall fuel2 prop v args c w5,
         strict_eq (store_get s prop w3) v = false ->
         (reg' = Some prop /\ args = PropArgs v (store_get s prop w3)) \/
         (reg' = None /\ args = GlobalArgs prop v) ->
         proxy_set fuel2 s prop v w3 = Some (c, w5) ->
         exists seen pre post,
           trace w5 = trace w3 ++ pre ++ ECall s reg' id' args seen :: post).
Proof.
  intros Hwf Hsub Hrun Hrun' w3.
  destruct (subscribe_at_handle _ _ _ _ _ _ Hsub)
    as (Hhs & Hhr & Hid & Hn1 & [st0 Hs0]).
  destruct (subscribe_at_invariants _ _ _ _ _ _ Hsub) as [Hev1 Hwf1].
  destruct (run_invariants _ _ _ _ Hrun) as (Hev2 & Hwf2 & _).
  destruct (run_invariants _ _ _ _ Hrun') as (_ & _ & Hgone).
  pose proof (evolves_trans _ _ _ Hev1 Hev2) as (_ & _ & Hstores & _).
  destruct (Hstores _ _ Hs0) as (st2 & Hs2 & _).
  destruct (call_unsub_frame h w2) as (Hheap & Hreg & Htr & Hn3 & Hother).
  assert (Habs : forall st, store_objs w3 !! handle_store h = Some st ->
                   handle_id h ∉ (registry st (handle_reg h)).*1)
    by (intros st; apply unsub_absent).
  split_and!.
  - by apply unsub_noop.
  - apply unsub_noop. apply Hgone. split; [|done].
    subst w3. rewrite Hn3, Hid. destruct Hev2 as [Hle _]. lia.
  - done.
  - done.
  - done.
  - by rewrite <- Hhs.
  - rewrite <- Hhs in Hs2.
    destruct (call_unsub_store _ _ _ Hs2) as (st3 & Hobjs & Ha & Hdel & Hsame).
    rewrite Hhs in Hs2, Hobjs. rewrite Hhr in Hdel, Hsame.
    assert (Hs3 : store_objs w3 !! s = Some st3).
    { subst w3. by rewrite Hobjs, lookup_insert_eq. }
    exists st2, st3. split_and!; [done|done|done| |done|].
    + rewrite Hdel. apply without_entry_delete.
      by apply (wf_registry_NoDup w2 s); [apply Hwf2, Hwf1|].
    + intros reg' id' cb' Hin Hcase.
      assert (Hin3 : (id', cb') ∈ registry st3 reg').
      { destruct (decide (reg' = reg)) as [->|Hne].
        - rewrite Hdel. apply elem_of_map_delete; [done|]. by destruct Hcase.
        - by rewrite Hsame. }
      split; [done|]. intros fuel2 prop v args c w5 Hne Hargs Hset.
      by eapply registered_is_called.
Qed.

Lemma unsubscribe_is_idempotent_witness :
  let w3 := call_unsub twin_handle twin_before in
  call_unsub twin_handle w3 = w3 /\
  call_unsub twin_handle twin_after = twin_after /\
  (heap w3 = heap twin_before /\ stores w3 = stores twin_before /\
   trace w3 = trace twin_before /\
   forall s', s' <> app -> store_objs w3 !! s' = store_objs twin_before !! s') /\
  exists st2 st3,
    store_objs twin_before !! app = Some st2 /\
    store_objs w3 !! app = Some st3 /\
    stateObj st3 = stateObj st2 /\
    without_entry (handle_id twin_handle)
      (registry st2 (Some "count")) (registry st3 (Some "count")) /\
    (forall reg', reg' <> Some "count" -> registry st3 reg' = registry st2 reg') /\
    (forall reg' id' cb',
       (id', cb') ∈ registry st2 reg' ->
       reg' <> Some "count" \/ id' <> handle_id twin_handle ->
       (id', cb') ∈ registry st3 reg' /\
       forall fuel2 prop v args c w5,
         strict_eq (store_get app prop w3) v = false ->
         (reg' = Some prop /\ args = PropArgs v (store_get app prop w3)) \/
         (reg' = None /\ args = GlobalArgs prop v) ->
         proxy_set fuel2 app prop v w3 = Some (c, w5) ->
         exists seen pre post,
           trace w5 = trace w3 ++ pre ++ ECall app reg' id' args seen :: post).
Proof.
  apply (unsubscribe_is_idempotent twin_world app (Some "count") quiet
           twin_handle twin_subscribed 8 [OpSet app "count" (VNum 1)] twin_before
           8 [OpSet app "count" (VNum 2); OpUnsub twin_handle;
              OpOn app "count" thrower] twin_after).
  - apply (bool_decide_unpack _). vm_compute. exact I.
  - vm_compute. reflexivity.
  - vm_compute. reflexivity.
  - vm_compute. reflexivity.
Defined.

(** The two subscriptions of the same callback on ["count"]: after the
    second one is unsubscribed the first is still called, and unsubscribing
    again later does not touch the subscription made in between. *)
Lemma twin_keeps_firing :
  (fun st => registry st (Some "count")) <$> (store_objs twin_before !! app) =
    Some [(0, quiet); (1, quiet)] /\
  (fun st => registry st (Some "count")) <$>
    (store_objs (call_unsub twin_handle twin_before) !! app) =
    Some [(0, quiet)] /\
  (fun st => registry st (Some "count")) <$> (store_objs twin_after !! app) =
    Some [(0, quiet); (2, thrower)] /\
  trace twin_after =
    [ECall app (Some "count") 0 (PropArgs (VNum 1) VUndef) {["count" := VNum 1]};
     ECall app (Some "count") 1 (PropArgs (VNum 1) VUndef) {["count" := VNum 1]};
     ECall app (Some "count") 0 (PropArgs (VNum 2) (VNum 1)) {["count" := VNum 2]}].
Proof. split_and!; vm_compute; reflexivity. Qed.

(** ** Snapshots (C7) *)

Lemma wf_stateObj_allocated w s st :
  wf_world w -> store_objs w !! s = Some st -> is_Some (heap w !! stateObj st).
Proof. intros [Hst _] Hs. by destruct (Hst _ _ Hs). Qed.

Lemma state_of_obj_assign_other s a prop v w :
  (forall st, store_objs w !! s = Some st -> stateObj st <> a) ->
  state_of s (obj_assign a prop v w) = state_of s w.
Proof.
  intros Hne. unfold state_of, obj_assign; simpl.
  destruct (store_objs w !! s) as [st|]; [|done].
  specialize (Hne st eq_refl). by rewrite lookup_alter_ne.
Qed.

(** C7, as the code has it: there is no [immutable] option; [getState]
    always returns a new object with the own properties of the state
    object, a shallow copy.  Assigning to a property of the returned object
    changes the state of no store and calls no subscriber.  A property
    whose value is an object holds the same reference in the copy and in
    the store, so what is assigned inside that object is assigned inside
    the store's state. *)
Theorem getState_is_a_shallow_copy w s st r w' :
  wf_world w ->
  store_objs w !! s = Some st ->
  store_getState s w = Some (r, w') ->
  heap w !! r = None /\
  heap w' !! r = Some (state_of s w) /\
  (forall a, a <> r -> heap w' !! a = heap w !! a) /\
  store_objs w' = store_objs w /\ trace w' = trace w /\
  (forall prop v,
     trace (obj_assign r prop v w') = trace w' /\
     store_objs (obj_assign r prop v w') = store_objs w' /\
     forall s', state_of s' (obj_assign r prop v w') = state_of s' w') /\
  (forall prop u, state_of s w !! prop = Some (VRef u) ->
     read_prop (heap w') r prop = VRef u /\
     store_get s prop w' = VRef u /\
     forall k v,
       is_Some (heap w !! u) ->
       read_prop (heap (obj_assign u k v w')) u k = v).
Proof.
  intros Hwf Hs. unfold store_getState. rewrite Hs. intros [= <- <-].
  pose proof (spread_fresh (default ∅ (heap w !! stateObj st)) w) as Hfresh.
  simpl in *. set (r := fresh (dom (heap w))) in *.
  assert (Hst : state_of s w = default ∅ (heap w !! stateObj st))
    by (unfold state_of; by rewrite Hs).
  assert (Hne : forall s0 st0, store_objs w !! s0 = Some st0 -> stateObj st0 <> r).
  { intros s0 st0 Hs0 Heq.
    destruct (wf_stateObj_allocated _ _ _ Hwf Hs0) as [o Ho]. congruence. }
  split_and!.
  - done.
  - by rewrite lookup_insert_eq, Hst.
  - intros a Ha. by rewrite lookup_insert_ne.
  - done.
  - done.
  - intros prop v. split_and!; [done|done|].
    intros s'. apply state_of_obj_assign_other. simpl. eauto.
  - intros prop u Hu. rewrite Hst in Hu. split_and!.
    + unfold read_prop. rewrite lookup_insert_eq. by rewrite Hu.
    + unfold store_get, read_prop. simpl. rewrite Hs.
      rewrite lookup_insert_ne by (intros Heq; by apply (Hne s st)).
      destruct (heap w !! stateObj st); simpl in *;
        [by rewrite Hu|by rewrite lookup_empty in Hu].
    + intros k v [o Ho]. apply read_prop_alter.
      rewrite lookup_insert_ne; [by eexists|].
      intros <-. congruence.
Qed.

Lemma getState_is_a_shallow_copy_witness :
  heap user_world !! 5 = None /\
  heap user_snapshot !! 5 = Some (state_of app user_world) /\
  (forall a, a <> 5 -> heap user_snapshot !! a = heap user_world !! a) /\
  store_objs user_snapshot = store_objs user_world /\
  trace user_snapshot = trace user_world /\
  (forall prop v,
     trace (obj_assign 5 prop v user_snapshot) = trace user_snapshot /\
     store_objs (obj_assign 5 prop v user_snapshot) = store_objs user_snapshot /\
     forall s', state_of s' (obj_assign 5 prop v user_snapshot) =
                state_of s' user_snapshot) /\
  (forall prop u, state_of app user_world !! prop = Some (VRef u) ->
     read_prop (heap user_snapshot) 5 prop = VRef u /\
     store_get app prop user_snapshot = VRef u /\
     forall k v,
       is_Some (heap user_world !! u) ->
       read_prop (heap (obj_assign u k v user_snapshot)) u k = v).
Proof.
  apply (getState_is_a_shallow_copy user_world app user_store 5 user_snapshot).
  - apply (bool_decide_unpack _). vm_compute. exact I.
  - vm_compute. reflexivity.
  - vm_compute. reflexivity.
Defined.

(** C7 as stated fails below the first level: the snapshot's [user] is the
    very object the store holds, so [snap.user.name = 'Z'] changes what
    [store.get('user').name] reads, without any notification. *)
Lemma snapshot_shares_nested_objects :
  store_getState app user_world = Some (5, user_snapshot) /\
  read_prop (heap user_snapshot) 5 "user" = VRef 2 /\
  store_get app "user" user_snapshot = VRef 2 /\
  nested_read app "user" "name" user_snapshot = VStr "A" /\
  nested_read app "user" "name"
    (obj_assign 2 "name" (VStr "Z") user_snapshot) = VStr "Z" /\
  trace (obj_assign 2 "name" (VStr "Z") user_snapshot) = trace user_snapshot.
Proof. split_and!; vm_compute; reflexivity. Qed.

(** ** The registry of stores (C8, C9) *)

Lemma createStore_registers name initialState w :
  stores (createStore name initialState w).2 !! name =
    Some (createStore name initialState w).1.
Proof.
  destruct (stores w !! name) as [s|] eqn:Hname.
  - by rewrite (createStore_existing _ _ _ _ Hname).
  - rewrite (createStore_new _ _ _ Hname). simpl. apply lookup_insert_eq.
Qed.

Lemma getStore_registered name s w :
  stores w !! name = Some s -> getStore name w = GotStore s.
Proof. intros H. unfold getStore, stores_get. by rewrite H. Qed.

(** C8: [createStore] with a name that is registered returns the
    registered store and changes nothing but the console, where it warns:
    no store is created, the registry and every store's state and
    subscribers are as before, and the initial state offered is not read. *)
Theorem createStore_returns_existing name initialState w s :
  stores w !! name = Some s ->
  createStore name initialState w = (s, log (EConsoleWarn name) w) /\
  getStore name w = GotStore s /\
  getStore name (createStore name initialState w).2 = GotStore s /\
  store_objs (createStore name initialState w).2 = store_objs w /\
  stores (createStore name initialState w).2 = stores w /\
  heap (createStore name initialState w).2 = heap w /\
  (forall s', state_of s' (createStore name initialState w).2 = state_of s' w) /\
  trace (createStore name initialState w).2 = trace w ++ [EConsoleWarn name].
Proof.
  intros Hname. rewrite (createStore_existing _ _ _ _ Hname). simpl.
  split_and!; try done; by apply getStore_registered.
Qed.

Lemma createStore_returns_existing_witness :
  createStore "default" (Some offered) offer_world =
    (0, log (EConsoleWarn "default") offer_world) /\
  getStore "default" offer_world = GotStore 0 /\
  getStore "default" (createStore "default" (Some offered) offer_world).2 =
    GotStore 0 /\
  store_objs (createStore "default" (Some offered) offer_world).2 =
    store_objs offer_world /\
  stores (createStore "default" (Some offered) offer_world).2 =
    stores offer_world /\
  heap (createStore "default" (Some offered) offer_world).2 = heap offer_world /\
  (forall s', state_of s' (createStore "default" (Some offered) offer_world).2 =
              state_of s' offer_world) /\
  trace (createStore "default" (Some offered) offer_world).2 =
    trace offer_world ++ [EConsoleWarn "default"].
Proof.
  apply (createStore_returns_existing "default" (Some offered) offer_world 0).
  vm_compute. reflexivity.
Defined.

(** C9: [getStore] of a name that is not registered is [null], not
    [undefined]; [getStore] of a name given to [createStore] is the store
    that [createStore] returned, right after the call and after any
    further calls.  [getStore] only reads the registry. *)
Theorem getStore_spec name other initialState w fuel ops w2 :
  stores w !! other = None ->
  run fuel ops (createStore name initialState w).2 = Some w2 ->
  getStore other w = GotNull /\
  getStore other w <> GotUndefined /\
  getStore name (createStore name initialState w).2 =
    GotStore (createStore name initialState w).1 /\
  getStore name w2 = GotStore (createStore name initialState w).1.
Proof.
  intros Hother Hrun. split_and!.
  - unfold getStore, stores_get. by rewrite Hother.
  - unfold getStore, stores_get. by rewrite Hother.
  - apply getStore_registered, createStore_registers.
  - apply run_invariants in Hrun as ((_ & Hnames & _) & _).
    apply getStore_registered, Hnames, createStore_registers.
Qed.

Lemma getStore_spec_witness :
  getStore "nowhere" module_loaded = GotNull /\
  getStore "nowhere" module_loaded <> GotUndefined /\
  getStore "app" (createStore "app" None module_loaded).2 =
    GotStore (createStore "app" None module_loaded).1 /\
  getStore "app" counter_world =
    GotStore (createStore "app" None module_loaded).1.
Proof.
  apply (getStore_spec "app" "nowhere" None module_loaded 8
           [OpOn app "count" quiet; OpSubscribe app thrower] counter_world).
  - vm_compute. reflexivity.
  - vm_compute. reflexivity.
Defined.

(** ** The initial state is copied (C10) *)

(** C10: [createStore] with a new name copies the own properties of
    [initialState] into a new state object.  Right after the call and
    after any further calls, assigning to a property of the object that was
    passed changes neither the state of the store nor its subscribers and
    calls nobody. *)
Theorem createStore_copies_initialState name a o w fuel ops w2 prop v :
  stores w !! name = None ->
  heap w !! a = Some o ->
  run fuel ops (createStore name (Some a) w).2 = Some w2 ->
  let s := (createStore name (Some a) w).1 in
  let w1 := (createStore name (Some a) w).2 in
  state_of s w1 = o /\
  (exists st, store_objs w1 !! s = Some st /\ stateObj st <> a /\
              heap w !! stateObj st = None) /\
  state_of s (obj_assign a prop v w1) = state_of s w1 /\
  state_of s (obj_assign a prop v w2) = state_of s w2 /\
  store_objs (obj_assign a prop v w2) = store_objs w2 /\
  trace (obj_assign a prop v w2) = trace w2.
Proof.
  intros Hname Ha Hrun s w1. subst s w1.
  rewrite (createStore_new _ _ _ Hname) in *. simpl in *.
  set (a' := fresh (dom (heap w))) in *.
  set (s := fresh (dom (store_objs w))) in *.
  assert (Hfresh : heap w !! a' = None) by apply not_elem_of_dom, is_fresh.
  assert (Hne : a' <> a) by congruence.
  rewrite Ha in *. simpl in *.
  apply run_invariants in Hrun as ((_ & _ & Hstores & _) & _).
  destruct (Hstores s _ (lookup_insert_eq _ _ _)) as (st2 & Hs2 & Ha2).
  simpl in *. split_and!.
  - unfold state_of; simpl. by rewrite !lookup_insert_eq.
  - eexists. split; [apply lookup_insert_eq|]. done.
  - apply state_of_obj_assign_other. simpl. intros st.
    rewrite lookup_insert_eq. by intros [= <-].
  - apply state_of_obj_assign_other. intros st. rewrite Hs2.
    intros [= <-]. congruence.
  - done.
  - done.
Qed.

Lemma createStore_copies_initialState_witness :
  let s := (createStore "app" (Some offered) offer_world).1 in
  let w1 := (createStore "app" (Some offered) offer_world).2 in
  let w2 := run_from w1 [OpOn app "count" quiet; OpSet app "count" (VNum 6)] in
  state_of s w1 = {["count" := VNum 5]} /\
  (exists st, store_objs w1 !! s = Some st /\ stateObj st <> offered /\
              heap offer_world !! stateObj st = None) /\
  state_of s (obj_assign offered "count" (VNum 7) w1) = state_of s w1 /\
  state_of s (obj_assign offered "count" (VNum 7) w2) = state_of s w2 /\
  store_objs (obj_assign offered "count" (VNum 7) w2) = store_objs w2 /\
  trace (obj_assign offered "count" (VNum 7) w2) = trace w2.
Proof.
  apply (createStore_copies_initialState "app" offered {["count" := VNum 5]}
           offer_world 8 [OpOn app "count" quiet; OpSet app "count" (VNum 6)]).
  - vm_compute. reflexivity.
  - vm_compute. reflexivity.
  - vm_compute. reflexivity.
Defined.

(** * Further properties of the store *)

(** ** What every write keeps *)

(** A relation between worlds that holds across logging and across an
    assignment to a state object holds across every write, whatever the
    callbacks write in turn. *)
Section WriteRelation.
Context (R : world -> world -> Prop).
Context (R_refl : forall w, R w w).
Context (R_trans : forall w1 w2 w3, R w1 w2 -> R w2 w3 -> R w1 w3).
Context (R_log : forall e w, R w (log e w)).
Context (R_assign : forall s st prop v w,
           store_objs w !! s = Some st ->
           R w (obj_assign (stateObj st) prop v w)).

Section Loop.
Context (set : setter).
Context (Hset : forall s prop v w c w', set s prop v w = Some (c, w') -> R w w').

Lemma run_body_rel body w c w' :
  run_body set body w = Some (c, w') -> R w w'.
Proof.
  revert w. induction body as [|[s prop v|] rest IH]; simpl; intros w H.
  - injection H as _ <-. apply R_refl.
  - destruct (set s prop v w) as [[[] w1]|] eqn:E; [| |done].
    + eapply R_trans; [by eapply Hset|by apply IH].
    + injection H as _ <-. by eapply Hset.
  - injection H as _ <-. apply R_refl.
Qed.

Lemma for_each_rel s reg args subs w c w' :
  for_each set s reg args subs w = Some (c, w') -> R w w'.
Proof.
  revert w. induction subs as [|[id cb] rest IH]; simpl; intros w H.
  - injection H as _ <-. apply R_refl.
  - destruct (run_body set _ _) as [[[] w1]|] eqn:E; [| |done];
      apply run_body_rel in E; apply IH in H.
    + eapply R_trans; [apply R_log|]. eapply R_trans; [apply E|apply H].
    + eapply R_trans; [apply R_log|]. eapply R_trans; [apply E|].
      eapply R_trans; [apply R_log|apply H].
Qed.
End Loop.

Lemma proxy_set_rel fuel : forall s prop v w c w',
  proxy_set fuel s prop v w = Some (c, w') -> R w w'.
Proof.
  induction fuel as [|fuel IH]; intros s prop v w c w'; simpl; [done|].
  destruct (store_objs w !! s) as [st|] eqn:Hs; [|done].
  destruct (strict_eq _ _).
  - intros [= <- <-]. by eapply R_assign.
  - destruct (for_each _ s (Some prop) _ _ _) as [[[] w2]|] eqn:E1; [| |done].
    + intros E2. apply (for_each_rel _ IH) in E1. apply (for_each_rel _ IH) in E2.
      eapply R_trans; [by eapply R_assign|]. by eapply R_trans.
    + intros [= <- <-]. apply (for_each_rel _ IH) in E1.
      eapply R_trans; [by eapply R_assign|done].
Qed.

Lemma update_each_rel fuel s entries : forall w c w',
  update_each fuel s entries w = Some (c, w') -> R w w'.
Proof.
  induction entries as [|[k v] rest IH]; simpl; intros w c w' H.
  - injection H as _ <-. apply R_refl.
  - destruct (proxy_set fuel s k v w) as [[[] w1]|] eqn:E; [| |done].
    + eapply R_trans; [by eapply proxy_set_rel|by eapply IH].
    + injection H as _ <-. by eapply proxy_set_rel.
Qed.
End WriteRelation.

Lemma not_a_state_same a w w' :
  store_objs w' = store_objs w -> not_a_state a w -> not_a_state a w'.
Proof. unfold not_a_state. by intros ->. Qed.

Lemma states_only_refl w : states_only w w.
Proof. by split. Qed.

Lemma states_only_trans w1 w2 w3 :
  states_only w1 w2 -> states_only w2 w3 -> states_only w1 w3.
Proof.
  intros [Hs1 Hh1] [Hs2 Hh2]. split; [congruence|].
  intros a Ha. rewrite Hh2, Hh1; [done..|]. by eapply not_a_state_same.
Qed.

Lemma states_only_log e w : states_only w (log e w).
Proof. by split. Qed.

Lemma states_only_assign s st prop v w :
  store_objs w !! s = Some st ->
  states_only w (obj_assign (stateObj st) prop v w).
Proof.
  intros Hs. split; [done|]. intros a Ha. simpl.
  rewrite lookup_alter_ne; [done|]. by apply (Ha s).
Qed.

Lemma keys_kept_refl w : keys_kept w w.
Proof. intros a o Ho. by exists o. Qed.

Lemma keys_kept_trans w1 w2 w3 :
  keys_kept w1 w2 -> keys_kept w2 w3 -> keys_kept w1 w3.
Proof.
  intros H1 H2 a o Ho. destruct (H1 _ _ Ho) as (o2 & Ho2 & Hd2).
  destruct (H2 _ _ Ho2) as (o3 & Ho3 & Hd3). exists o3. split; [done|].
  set_solver.
Qed.

Lemma keys_kept_log e w : keys_kept w (log e w).
Proof. intros a o Ho. by exists o. Qed.

Lemma keys_kept_obj_assign a prop v w : keys_kept w (obj_assign a prop v w).
Proof.
  intros a' o Ho. simpl. destruct (decide (a' = a)) as [->|Hne].
  - exists (<[prop := v]> o). rewrite lookup_alter_eq, Ho. split; [done|].
    rewrite dom_insert. set_solver.
  - exists o. by rewrite lookup_alter_ne.
Qed.

Lemma keys_kept_same_heap w w' : heap w' = heap w -> keys_kept w w'.
Proof. intros Hh a o Ho. exists o. by rewrite Hh. Qed.

Lemma keys_kept_grow a o w :
  heap w !! a = None -> keys_kept w (set_heap (<[a := o]> (heap w)) w).
Proof.
  intros Ha a' o' Ho'. exists o'. simpl. split; [|done].
  rewrite lookup_insert_ne; [done|congruence].
Qed.

Lemma store_step_same w w' : store_objs w' = store_objs w -> store_step w w'.
Proof. intros Hs s st' Hst'. left. exists st'. by rewrite <- Hs. Qed.

Lemma store_step_set_store w w' s st st' :
  store_objs w !! s = Some st -> stateObj st' = stateObj st ->
  store_objs w' = <[s := st']> (store_objs w) -> store_step w w'.
Proof.
  intros Hs Ha Hobjs s0 st0. rewrite Hobjs. left.
  destruct (decide (s0 = s)) as [->|Hne].
  - rewrite lookup_insert_eq in H. injection H as <-. by exists st.
  - rewrite lookup_insert_ne in H by done. by exists st0.
Qed.

Lemma call_unsub_store_step h w : store_step w (call_unsub h w).
Proof.
  destruct (store_objs w !! handle_store h) as [st|] eqn:Hs.
  - destruct (call_unsub_store _ _ _ Hs) as (st' & Hobjs & Ha & _).
    eapply store_step_set_store; [exact Hs| |exact Hobjs]; done.
  - apply store_step_same.
    destruct h as [s id|s prop id]; simpl in *; by rewrite Hs.
Qed.

(** What one call does to the stores and to the heap. *)
Lemma step_effect fuel o w w' :
  step fuel o w = Some w' ->
  store_step w w' /\ keys_kept w w' /\
  forall a, is_Some (heap w !! a) -> not_a_state a w -> leaves_alone a o ->
    heap w' !! a = heap w !! a.
Proof.
  destruct o as [s prop v|s u|s cb|s prop cb|h|s|name initialState|a0 prop v];
    simpl.
  - unfold store_set.
    destruct (proxy_set fuel s prop v w) as [[[] w1]|] eqn:E; simpl; [| |done].
    + intros [= <-]. split_and!.
      * apply store_step_same.
        by apply proxy_set_ok in E as (_ & ? & _).
      * revert E. apply (proxy_set_rel keys_kept); intros;
          eauto using keys_kept_refl, keys_kept_trans, keys_kept_log,
            keys_kept_obj_assign.
      * intros a _ Ha _. revert E a Ha.
        apply (proxy_set_rel states_only); intros;
          eauto using states_only_refl, states_only_trans, states_only_log,
            states_only_assign.
    + by apply proxy_set_ok in E as [? _].
  - unfold store_update.
    destruct (update_each fuel s _ w) as [[c w1]|] eqn:E; simpl; [|done].
    intros [= <-]. split_and!.
    + apply store_step_same. by apply update_each_ok in E as (_ & ? & _).
    + revert E. apply (update_each_rel keys_kept); intros;
        eauto using keys_kept_refl, keys_kept_trans, keys_kept_log,
          keys_kept_obj_assign.
    + intros a _ Ha _. revert E a Ha.
      apply (update_each_rel states_only); intros;
        eauto using states_only_refl, states_only_trans, states_only_log,
          states_only_assign.
  - unfold store_subscribe.
    destruct (store_objs w !! s) as [st|] eqn:Hs; simpl; [|done].
    intros [= <-]. split_and!; [|by apply keys_kept_same_heap|done].
    eapply store_step_set_store; [exact Hs| |simpl; reflexivity]; done.
  - rewrite store_on_eq.
    destruct (store_objs w !! s) as [st|] eqn:Hs; simpl; [|done].
    intros [= <-]. split_and!; [|by apply keys_kept_same_heap|done].
    eapply store_step_set_store; [exact Hs| |simpl; reflexivity]; done.
  - intros [= <-]. destruct (call_unsub_frame h w) as (Hh & _).
    split_and!; [apply call_unsub_store_step| |by rewrite Hh].
    by apply keys_kept_same_heap.
  - unfold store_getState.
    destruct (store_objs w !! s) as [st|] eqn:Hs; simpl; [|done].
    intros [= <-]. simpl.
    assert (Hf : heap w !! fresh (dom (heap w)) = None)
      by apply not_elem_of_dom, is_fresh.
    split_and!; [by apply store_step_same|by apply keys_kept_grow|].
    intros a [o Ho] _ _. rewrite lookup_insert_ne; [done|congruence].
  - intros [= <-]. destruct (stores w !! name) as [s|] eqn:Hname.
    + rewrite (createStore_existing _ _ _ _ Hname). simpl.
      split_and!; [by apply store_step_same|apply keys_kept_log|done].
    + rewrite (createStore_new _ _ _ Hname). simpl.
      assert (Hf : heap w !! fresh (dom (heap w)) = None)
        by apply not_elem_of_dom, is_fresh.
      split_and!.
      * intros s0 st0. simpl.
        destruct (decide (s0 = fresh (dom (store_objs w)))) as [->|Hne].
        -- rewrite lookup_insert_eq. intros [= <-]. by right.
        -- rewrite lookup_insert_ne by done. intros H0. left. by exists st0.
      * intros a o Ho. exists o. simpl. split; [|done].
        rewrite lookup_insert_ne; [done|congruence].
      * intros a [o Ho] _ _. simpl.
        rewrite lookup_insert_ne; [done|congruence].
  - intros [= <-]. split_and!.
    + by apply store_step_same.
    + apply keys_kept_obj_assign.
    + intros a _ _ Hne. simpl in *. by rewrite lookup_alter_ne.
Qed.

Lemma store_step_not_a_state a w w' :
  store_step w w' -> is_Some (heap w !! a) -> not_a_state a w ->
  not_a_state a w'.
Proof.
  intros Hstep [o Ho] Ha s st' Hst'.
  destruct (Hstep _ _ Hst') as [(st & Hst & <-)|[_ Hnew]].
  - by apply (Ha s).
  - congruence.
Qed.

Lemma store_step_distinct w w' :
  store_step w w' -> wf_world w -> states_distinct w -> states_distinct w'.
Proof.
  intros Hstep [Hwf _] Hd s1 s2 st1 st2 H1 H2 Heq.
  destruct (Hstep _ _ H1) as [(st1' & H1' & Ha1)|[-> Hn1]];
    destruct (Hstep _ _ H2) as [(st2' & H2' & Ha2)|[-> Hn2]].
  - apply (Hd _ _ _ _ H1' H2'). congruence.
  - destruct (Hwf _ _ H1') as [[o Ho] _]. congruence.
  - destruct (Hwf _ _ H2') as [[o Ho] _]. congruence.
  - done.
Qed.

Lemma run_distinct fuel ops : forall w w',
  run fuel ops w = Some w' -> wf_world w -> states_distinct w ->
  states_distinct w'.
Proof.
  induction ops as [|o rest IH]; simpl; intros w w' H Hwf Hd.
  - by injection H as <-.
  - destruct (step fuel o w) as [w1|] eqn:E; [|done].
    destruct (step_effect _ _ _ _ E) as (Hstep & _).
    destruct (step_invariants _ _ _ _ E) as (_ & Hwf1 & _).
    eapply IH; eauto using store_step_distinct.
Qed.

Lemma distinct_module_loaded : states_distinct module_loaded.
Proof.
  unfold module_loaded, load_module.
  destruct (spread ∅ empty_world) as [a w] eqn:E. injection E as <- <-.
  eapply (store_step_distinct (set_heap _ empty_world)).
  - by eapply (step_effect 0 (OpCreateStore "default" _)).
  - split; apply map_Forall_empty.
  - intros s1 s2 st1 st2 H1. simpl in H1. by rewrite lookup_empty in H1.
Qed.

(** ** The order of the calls *)

Lemma calls_notify_events s reg args seen subs :
  calls (notify_events s reg args seen subs) = (fun id => (reg, id)) <$> subs.*1.
Proof.
  unfold calls, notify_events. induction subs as [|[id cb] rest IH]; [done|].
  simpl. destruct (throws _); simpl; f_equal; apply IH.
Qed.

Lemma calls_app evs1 evs2 : calls (evs1 ++ evs2) = calls evs1 ++ calls evs2.
Proof. unfold calls. apply omap_app. Qed.

Lemma changing_write_calls fuel s st w prop v :
  store_objs w !! s = Some st ->
  passive st ->
  strict_eq (store_get s prop w) v = false ->
  exists w' evs,
    store_set (S fuel) s prop v w = Some (Normal, v, w') /\
    trace w' = trace w ++ evs /\
    calls evs = ((fun id => (Some prop, id)) <$> prop_ids st prop) ++
                ((fun id => (None, id)) <$> global_ids st).
Proof.
  intros Hs Hp Hne. unfold store_set.
  rewrite (proxy_set_passive _ _ _ Hp _ _ _ Hs).
  eexists _, (set_events s st prop v w). split_and!; [done|done|].
  unfold set_events. unfold store_get in Hne. rewrite Hs in Hne. rewrite Hne.
  by rewrite calls_app, !calls_notify_events.
Qed.



Lemma strict_eq_nan_r a : strict_eq a VNaN = false.
Proof. by destruct a. Qed.

(** X2: [NaN !== NaN], so in a store whose callbacks only return or throw
    a write of [NaN] is never taken for a write of the same value: it
    calls all subscribers of the property and all global subscribers, also
    when the property (any but those [Object.prototype] defines) already
    holds [NaN]. *)
Theorem nan_write_always_notifies fuel s st w prop :
  store_objs w !! s = Some st ->
  passive st ->
  is_Some (heap w !! stateObj st) ->
  plain_key prop ->
  exists w1 evs1 w2 evs2,
    store_set (S fuel) s prop VNaN w = Some (Normal, VNaN, w1) /\
    trace w1 = trace w ++ evs1 /\
    store_get s prop w1 = VNaN /\
    store_set (S fuel) s prop VNaN w1 = Some (Normal, VNaN, w2) /\
    trace w2 = trace w1 ++ evs2 /\
    calls evs1 = calls evs2 /\
    calls evs2 = ((fun id => (Some prop, id)) <$> prop_ids st prop) ++
                 ((fun id => (None, id)) <$> global_ids st).
Proof.
  intros Hs Hp Ha _.
  destruct (changing_write_calls fuel s st w prop VNaN Hs Hp
              (strict_eq_nan_r _)) as (w1 & evs1 & Hrun1 & Ht1 & Hc1).
  assert (Hs1 : store_objs w1 !! s = Some st).
  { unfold store_set in Hrun1.
    destruct (proxy_set _ _ _ _ _) as [[[] w0]|] eqn:E; [|done..].
    injection Hrun1 as <-. apply proxy_set_ok in E as (_ & -> & _). done. }
  destruct (changing_write_calls fuel s st w1 prop VNaN Hs1 Hp
              (strict_eq_nan_r _)) as (w2 & evs2 & Hrun2 & Ht2 & Hc2).
  exists w1, evs1, w2, evs2. split_and!; try done; [|congruence].
  unfold store_set in Hrun1.
  rewrite (proxy_set_passive _ _ _ Hp _ _ _ Hs) in Hrun1.
  injection Hrun1 as <-. rewrite store_get_log_all.
  unfold store_get. simpl. rewrite Hs. by apply read_prop_alter.
Qed.

Lemma nan_write_always_notifies_witness :
  exists w1 evs1 w2 evs2,
    store_set 1 app "count" VNaN faulty_world = Some (Normal, VNaN, w1) /\
    trace w1 = trace faulty_world ++ evs1 /\
    store_get app "count" w1 = VNaN /\
    store_set 1 app "count" VNaN w1 = Some (Normal, VNaN, w2) /\
    trace w2 = trace w1 ++ evs2 /\
    calls evs1 = calls evs2 /\
    calls evs2 =
      ((fun id => (Some "count", id)) <$> prop_ids faulty_store "count") ++
      ((fun id => (None, id)) <$> global_ids faulty_store).
Proof.
  apply (nan_write_always_notifies 0 app faulty_store faulty_world).
  - vm_compute. reflexivity.
  - apply faulty_store_passive.
  - vm_compute. eexists. reflexivity.
  - apply (bool_decide_unpack _). vm_compute. exact I.
Defined.

(** ** Worlds reached by calls *)

(** X3: in every world reached from the loaded module by calls, every
    store has a state object that exists and belongs to no other store,
    the symbols within each subscriber map are distinct and were issued,
    and every registered name leads to a store. *)
Theorem reached_worlds_are_well_formed fuel ops w :
  run fuel ops module_loaded = Some w ->
  wf_world w /\ states_distinct w /\
  (forall s1 s2 st1 st2,
     store_objs w !! s1 = Some st1 -> store_objs w !! s2 = Some st2 ->
     s1 <> s2 ->
     stateObj st1 <> stateObj st2 /\ is_Some (heap w !! stateObj st1)) /\
  (forall s st reg,
     store_objs w !! s = Some st ->
     NoDup (registry st reg).*1 /\
     Forall (fun id => id < next_sym w) (registry st reg).*1) /\
  (forall name, getStore name w = GotNull \/
                exists s st, getStore name w = GotStore s /\
                             store_objs w !! s = Some st).
Proof.
  intros Hrun.
  assert (Hwf : wf_world w).
  { by apply (run_invariants _ _ _ _ Hrun), wf_module_loaded. }
  assert (Hd : states_distinct w).
  { eapply run_distinct;
      eauto using wf_module_loaded, distinct_module_loaded. }
  split_and!; [done|done| | |].
  - intros s1 s2 st1 st2 H1 H2 Hne. split.
    + intros Heq. apply Hne. by eapply Hd.
    + by eapply wf_stateObj_allocated.
  - intros s st reg Hs. split; [by eapply wf_registry_NoDup|].
    destruct Hwf as [Hst _]. destruct (Hst _ _ Hs) as (_ & [Hg _] & Hp).
    destruct reg as [prop|]; simpl; [|done].
    destruct (propSubscribers st !! prop) as [m|] eqn:Hm; simpl.
    + by destruct (Hp _ _ Hm).
    + constructor.
  - intros name. unfold getStore, stores_get.
    destruct (stores w !! name) as [s|] eqn:Hname; [right|by left].
    destruct Hwf as [_ Hreg]. destruct (Hreg _ _ Hname) as [st Hst].
    by exists s, st.
Qed.

Lemma reached_worlds_are_well_formed_witness :
  wf_world faulty_world /\ states_distinct faulty_world /\
  (forall s1 s2 st1 st2,
     store_objs faulty_world !! s1 = Some st1 ->
     store_objs faulty_world !! s2 = Some st2 ->
     s1 <> s2 ->
     stateObj st1 <> stateObj st2 /\
     is_Some (heap faulty_world !! stateObj st1)) /\
  (forall s st reg,
     store_objs faulty_world !! s = Some st ->
     NoDup (registry st reg).*1 /\
     Forall (fun id => id < next_sym faulty_world) (registry st reg).*1) /\
  (forall name, getStore name faulty_world = GotNull \/
                exists s st, getStore name faulty_world = GotStore s /\
                             store_objs faulty_world !! s = Some st).
Proof.
  apply (reached_worlds_are_well_formed 8
           [OpCreateStore "app" None; OpOn app "count" thrower;
            OpOn app "count" quiet; OpSubscribe app thrower;
            OpSubscribe app quiet]).
  vm_compute. reflexivity.
Defined.

(** X4: in a world reached by calls, a write to a property other than
    [__proto__] of a store whose callbacks only return or throw changes
    what is read from that property of that store and nothing else: every
    other property of the store and every property of every other store
    reads as before. *)
Theorem write_stays_in_its_store fuel ops w fuel' s st prop v :
  run fuel ops module_loaded = Some w ->
  store_objs w !! s = Some st ->
  passive st ->
  prop <> "__proto__" ->
  exists w',
    store_set (S fuel') s prop v w = Some (Normal, v, w') /\
    store_get s prop w' = v /\
    (forall q, q <> prop -> store_get s q w' = store_get s q w) /\
    (forall s' q, s' <> s -> store_get s' q w' = store_get s' q w /\
                             state_of s' w' = state_of s' w).
Proof.
  intros Hrun Hs Hp _.
  assert (Hwf : wf_world w).
  { by apply (run_invariants _ _ _ _ Hrun), wf_module_loaded. }
  assert (Hd : states_distinct w).
  { eapply run_distinct;
      eauto using wf_module_loaded, distinct_module_loaded. }
  pose proof (wf_stateObj_allocated _ _ _ Hwf Hs) as Ha.
  unfold store_set. rewrite (proxy_set_passive _ _ _ Hp _ _ _ Hs).
  eexists. split; [done|]. split_and!.
  - rewrite store_get_log_all. unfold store_get. simpl. rewrite Hs.
    by apply read_prop_alter.
  - intros q Hq. rewrite store_get_log_all.
    rewrite !(store_get_state_of _ st) by done.
    by rewrite state_of_obj_assign, lookup_insert_ne.
  - intros s' q Hne. rewrite store_get_log_all, state_of_log_all.
    assert (Hst : state_of s' (obj_assign (stateObj st) prop v w) = state_of s' w).
    { apply state_of_obj_assign_other. intros st' Hs' Heq.
      apply Hne. by apply (Hd _ _ _ _ Hs' Hs). }
    split; [|done]. unfold store_get. simpl.
    destruct (store_objs w !! s') as [st'|] eqn:Hs'; [|done].
    unfold read_prop. simpl. rewrite lookup_alter_ne; [done|].
    intros Heq. apply Hne. symmetry. by apply (Hd _ _ _ _ Hs Hs').
Qed.

Lemma write_stays_in_its_store_witness :
  exists w',
    store_set 1 app "count" (VNum 1) faulty_world = Some (Normal, VNum 1, w') /\
    store_get app "count" w' = VNum 1 /\
    (forall q, q <> "count" -> store_get app q w' = store_get app q faulty_world) /\
    (forall s' q, s' <> app ->
       store_get s' q w' = store_get s' q faulty_world /\
       state_of s' w' = state_of s' faulty_world).
Proof.
  apply (write_stays_in_its_store 8
           [OpCreateStore "app" None; OpOn app "count" thrower;
            OpOn app "count" quiet; OpSubscribe app thrower;
            OpSubscribe app quiet] faulty_world 0 app faulty_store).
  - vm_compute. reflexivity.
  - vm_compute. reflexivity.
  - apply faulty_store_passive.
  - done.
Defined.

(** ** Snapshots and keys over time *)

Lemma run_keeps_object a fuel ops : forall w w',
  run fuel ops w = Some w' ->
  Forall (leaves_alone a) ops ->
  is_Some (heap w !! a) -> not_a_state a w ->
  heap w' !! a = heap w !! a.
Proof.
  induction ops as [|o rest IH]; simpl; intros w w' H Hall Ha Hn.
  - by injection H as <-.
  - destruct (step fuel o w) as [w1|] eqn:E; [|done].
    apply Forall_cons in Hall as [Ho Hall].
    destruct (step_effect _ _ _ _ E) as (Hstep & _ & Hheap).
    specialize (Hheap a Ha Hn Ho).
    rewrite (IH _ _ H Hall); [done|by rewrite Hheap|].
    by eapply store_step_not_a_state.
Qed.

(** X5: the object returned by [getState] is a snapshot: whatever calls
    are made afterwards on any store, by callers or by callbacks, it keeps
    the properties it was returned with, as long as nobody assigns to the
    snapshot itself. *)
Theorem snapshot_is_stable w s r w1 fuel ops w2 :
  wf_world w ->
  store_getState s w = Some (r, w1) ->
  Forall (leaves_alone r) ops ->
  run fuel ops w1 = Some w2 ->
  heap w1 !! r = Some (state_of s w) /\
  heap w2 !! r = Some (state_of s w).
Proof.
  intros Hwf Hget Hall Hrun. unfold store_getState in Hget.
  destruct (store_objs w !! s) as [st|] eqn:Hs; [|done].
  injection Hget as <- <-.
  assert (Hf : heap w !! fresh (dom (heap w)) = None)
    by apply not_elem_of_dom, is_fresh.
  assert (H1 : heap (set_heap (<[fresh (dom (heap w)) :=
                        default ∅ (heap w !! stateObj st)]> (heap w)) w)
               !! fresh (dom (heap w)) = Some (state_of s w)).
  { simpl. rewrite lookup_insert_eq. unfold state_of. by rewrite Hs. }
  split; [done|]. rewrite <- H1.
  apply (run_keeps_object _ _ _ _ _ Hrun Hall); [by rewrite H1|].
  intros s' st' Hs' Heq. simpl in Hs'.
  destruct (wf_stateObj_allocated _ _ _ Hwf Hs') as [o Ho]. congruence.
Qed.

Lemma snapshot_is_stable_witness :
  heap user_snapshot !! 5 = Some (state_of app user_world) /\
  heap (run_from user_snapshot
          [OpSet app "user" VNull; OpUpdate app (UObject [("n", VNum 1)]);
           OpCreateStore "other" (Some 5); OpGetState app])
    !! 5 = Some (state_of app user_world).
Proof.
  apply (snapshot_is_stable user_world app 5 user_snapshot 8
           [OpSet app "user" VNull; OpUpdate app (UObject [("n", VNum 1)]);
            OpCreateStore "other" (Some 5); OpGetState app]).
  - apply (bool_decide_unpack _). vm_compute. exact I.
  - vm_compute. reflexivity.
  - repeat constructor.
  - vm_compute. reflexivity.
Defined.

Lemma run_keys_kept fuel ops : forall w w',
  run fuel ops w = Some w' -> keys_kept w w'.
Proof.
  induction ops as [|o rest IH]; simpl; intros w w' H.
  - injection H as <-. apply keys_kept_refl.
  - destruct (step fuel o w) as [w1|] eqn:E; [|done].
    destruct (step_effect _ _ _ _ E) as (_ & Hk & _).
    eauto using keys_kept_trans.
Qed.

(** X6: no method of a store, no [createStore] and no assignment removes
    a key: a property that the state of a store has, it still has after
    any calls, whatever the callbacks do. *)
Theorem keys_are_never_removed fuel ops w w' s prop :
  run fuel ops w = Some w' ->
  is_Some (state_of s w !! prop) ->
  is_Some (state_of s w' !! prop).
Proof.
  intros Hrun [v Hv]. unfold state_of in *.
  destruct (store_objs w !! s) as [st|] eqn:Hs;
    [|simpl in Hv; by rewrite lookup_empty in Hv].
  destruct (heap w !! stateObj st) as [o|] eqn:Ho;
    [|simpl in Hv; by rewrite lookup_empty in Hv].
  simpl in Hv.
  destruct (run_invariants _ _ _ _ Hrun) as ((_ & _ & Hstores & _) & _).
  destruct (Hstores _ _ Hs) as (st' & -> & ->).
  destruct (run_keys_kept _ _ _ _ Hrun _ _ Ho) as (o' & -> & Hdom). simpl.
  apply elem_of_dom, Hdom, elem_of_dom. by exists v.
Qed.

Lemma keys_are_never_removed_witness :
  is_Some (state_of app
             (run_from pair_world
                [OpSet app "a" VUndef; OpUpdate app (UObject [("c", VNull)]);
                 OpAssign 3 "a" VNull])
           !! "a").
Proof.
  apply (keys_are_never_removed 8
           [OpSet app "a" VUndef; OpUpdate app (UObject [("c", VNull)]);
            OpAssign 3 "a" VNull] pair_world).
  - vm_compute. reflexivity.
  - vm_compute. eexists. reflexivity.
Defined.

(** ** Subscribing and unsubscribing *)

Lemma subscribe_at_store s reg cb w h w1 :
  subscribe_at s reg cb w = Some (h, w1) ->
  exists st st1,
    store_objs w !! s = Some st /\
    store_objs w1 = <[s := st1]> (store_objs w) /\
    stateObj st1 = stateObj st /\
    registry st1 reg = registry st reg ++ [(next_sym w, cb)] /\
    (forall reg', reg' <> reg -> registry st1 reg' = registry st reg') /\
    heap w1 = heap w /\ stores w1 = stores w /\ trace w1 = trace w.
Proof.
  destruct reg as [prop|]; simpl.
  - rewrite store_on_eq. destruct (store_objs w !! s) as [st|] eqn:Hs; [|done].
    intros [= <- <-]. eexists st, _. split_and!; try done.
    + simpl. by rewrite lookup_insert_eq.
    + intros [p|] Hne; [|done]. simpl.
      rewrite lookup_insert_ne; [done|congruence].
  - unfold store_subscribe. destruct (store_objs w !! s) as [st|] eqn:Hs; [|done].
    intros [= <- <-]. eexists st, _. split_and!; try done.
    by intros [p|] Hne.
Qed.

Lemma store_on_map s prop cb w h w1 :
  store_on s prop cb w = Some (h, w1) ->
  exists st st1,
    store_objs w !! s = Some st /\ store_objs w1 !! s = Some st1 /\
    propSubscribers st1 !! prop =
      Some (default [] (propSubscribers st !! prop) ++ [(next_sym w, cb)]).
Proof.
  rewrite store_on_eq. destruct (store_objs w !! s) as [st|] eqn:Hs; [|done].
  intros [= <- <-]. eexists st, _. split_and!; [done|apply lookup_insert_eq|].
  simpl. apply lookup_insert_eq.
Qed.

Lemma call_unsub_prop_map s prop id w st m :
  store_objs w !! s = Some st -> propSubscribers st !! prop = Some m ->
  exists st',
    store_objs (call_unsub (UnsubProp s prop id) w) !! s = Some st' /\
    propSubscribers st' !! prop = Some (map_delete id m).
Proof.
  intros Hs Hm. simpl. rewrite Hs, Hm. eexists.
  split; [apply lookup_insert_eq|]. simpl. apply lookup_insert_eq.
Qed.

Lemma map_delete_snoc id cb m :
  id ∉ m.*1 -> map_delete id (m ++ [(id, cb)]) = m.
Proof.
  intros Hout. unfold map_delete. rewrite filter_app.
  fold (map_delete id m). rewrite map_delete_absent by done.
  rewrite filter_cons. simpl.
  destruct (decide (id <> id)); [done|]. by rewrite filter_nil, app_nil_r.
Qed.

(** X7: subscribing and unsubscribing at once calls nobody and leaves the
    state, the registry of names and every subscriber map as they were;
    what stays is the symbol that was used up and, after [on] for a
    property that had no subscriber map, an empty map for it. *)
Theorem subscribe_then_unsubscribe w s reg cb h w1 :
  wf_world w ->
  subscribe_at s reg cb w = Some (h, w1) ->
  heap (call_unsub h w1) = heap w /\
  stores (call_unsub h w1) = stores w /\
  trace (call_unsub h w1) = trace w /\
  next_sym (call_unsub h w1) = S (next_sym w) /\
  (forall s', s' <> s -> store_objs (call_unsub h w1) !! s' = store_objs w !! s') /\
  exists st st2,
    store_objs w !! s = Some st /\
    store_objs (call_unsub h w1) !! s = Some st2 /\
    stateObj st2 = stateObj st /\
    subscribers st2 = subscribers st /\
    (forall reg', registry st2 reg' = registry st reg') /\
    (forall prop, reg = Some prop -> propSubscribers st !! prop = None ->
       propSubscribers st2 !! prop = Some []).
Proof.
  intros Hwf Hsub.
  destruct (subscribe_at_handle _ _ _ _ _ _ Hsub) as (Hhs & Hhr & Hid & Hn1 & _).
  destruct (subscribe_at_store _ _ _ _ _ _ Hsub)
    as (st & st1 & Hs & Hobjs1 & Ha1 & Hreg1 & Hsame1 & Hh1 & Hr1 & Ht1).
  destruct (call_unsub_frame h w1) as (Hh & Hr & Ht & Hn & Hother).
  assert (Hs1 : store_objs w1 !! handle_store h = Some st1).
  { by rewrite Hhs, Hobjs1, lookup_insert_eq. }
  destruct (call_unsub_store _ _ _ Hs1) as (st2 & Hobjs2 & Ha2 & Hdel & Hsame2).
  rewrite Hhs in *. rewrite Hhr in *. rewrite Hid in *.
  assert (Hfresh : next_sym w ∉ (registry st reg).*1).
  { intros Hin. destruct Hwf as [Hst _]. destruct (Hst _ _ Hs) as (_ & [Hg _] & Hp).
    assert (Hlt : Forall (fun id => id < next_sym w) (registry st reg).*1).
    { destruct reg as [prop|]; simpl; [|done].
      destruct (propSubscribers st !! prop) as [m|] eqn:Hm; simpl.
      - by destruct (Hp _ _ Hm).
      - constructor. }
    rewrite Forall_forall in Hlt. apply Hlt in Hin. lia. }
  assert (Hregs : forall reg', registry st2 reg' = registry st reg').
  { intros reg'. destruct (decide (reg' = reg)) as [->|Hne].
    - by rewrite Hdel, Hreg1, map_delete_snoc.
    - by rewrite Hsame2, Hsame1. }
  split_and!; try congruence.
  - intros s' Hne. rewrite Hother by done. rewrite Hobjs1.
    by rewrite lookup_insert_ne.
  - exists st, st2. split_and!; try done.
    + by rewrite Hobjs2, lookup_insert_eq.
    + congruence.
    + apply (Hregs None).
    + intros prop -> Hnone.
      destruct (store_on_map _ _ _ _ _ _ Hsub) as (st' & st1' & Hs' & Hs1' & Hm1).
      rewrite Hobjs1, lookup_insert_eq in Hs1'. injection Hs1' as <-.
      rewrite Hs in Hs'. injection Hs' as <-.
      destruct (call_unsub_prop_map s prop (next_sym w) w1 st1 _ Hs1 Hm1)
        as (st2' & Hs2' & Hm2).
      assert (Heq : h = UnsubProp s prop (next_sym w)).
      { destruct h; simpl in Hhs, Hhr, Hid; congruence. }
      rewrite <- Heq in Hs2'.
      rewrite Hobjs2, lookup_insert_eq in Hs2'. injection Hs2' as <-.
      rewrite Hm2, Hnone. simpl. f_equal.
      apply (map_delete_snoc _ _ []), not_elem_of_nil.
Qed.

Lemma subscribe_then_unsubscribe_witness :
  heap (call_unsub theme_handle theme_subscribed) = heap twin_world /\
  stores (call_unsub theme_handle theme_subscribed) = stores twin_world /\
  trace (call_unsub theme_handle theme_subscribed) = trace twin_world /\
  next_sym (call_unsub theme_handle theme_subscribed) = S (next_sym twin_world) /\
  (forall s', s' <> app ->
     store_objs (call_unsub theme_handle theme_subscribed) !! s' =
     store_objs twin_world !! s') /\
  exists st st2,
    store_objs twin_world !! app = Some st /\
    store_objs (call_unsub theme_handle theme_subscribed) !! app = Some st2 /\
    stateObj st2 = stateObj st /\
    subscribers st2 = subscribers st /\
    (forall reg', registry st2 reg' = registry st reg') /\
    (forall prop, Some "theme" = Some prop -> propSubscribers st !! prop = None ->
       propSubscribers st2 !! prop = Some []).
Proof.
  apply (subscribe_then_unsubscribe twin_world app (Some "theme") quiet
           theme_handle theme_subscribed).
  - apply (bool_decide_unpack _). vm_compute. exact I.
  - vm_compute. reflexivity.
Defined.

(** ** The order of the keys of an update *)

Lemma apply_entries_perm entries entries' o :
  NoDup entries.*1 -> entries ≡ₚ entries' ->
  apply_entries entries o = apply_entries entries' o.
Proof.
  intros Hnd Hperm.
  assert (Hnd' : NoDup entries'.*1) by by rewrite <- Hperm.
  apply map_eq. intros k. destruct (decide (k ∈ entries.*1)) as [Hin|Hout].
  - apply list_elem_of_fmap in Hin as ([k' v] & -> & Hin). simpl.
    rewrite (apply_entries_in _ _ v) by done.
    rewrite (apply_entries_in _ _ v); [done|done|by rewrite <- Hperm].
  - rewrite !apply_entries_notin; [done| |done]. by rewrite <- Hperm.
Qed.

(** X8: what [update] leaves in the state does not depend on the order of
    the keys of its argument (the order only decides the order of the
    notifications). *)
Theorem update_state_ignores_key_order fuel s st w entries entries' :
  store_objs w !! s = Some st ->
  is_Some (heap w !! stateObj st) ->
  passive st ->
  NoDup entries.*1 ->
  entries ≡ₚ entries' ->
  exists w1 w2,
    store_update (S fuel) s (UObject entries) w = Some (Normal, w1) /\
    store_update (S fuel) s (UObject entries') w = Some (Normal, w2) /\
    state_of s w1 = state_of s w2 /\
    forall q, store_get s q w1 = store_get s q w2.
Proof.
  intros Hs Ha Hp Hnd Hperm.
  destruct (update_each_passive fuel s st Hp entries w Hs Ha)
    as (w1 & evs1 & Hrun1 & Hst1 & _).
  destruct (update_each_passive fuel s st Hp entries' w Hs Ha)
    as (w2 & evs2 & Hrun2 & Hst2 & _).
  exists w1, w2. split_and!; [done|done| |].
  - rewrite Hst1, Hst2. by apply apply_entries_perm.
  - intros q.
    apply update_each_ok in Hrun1 as (_ & Hobjs1 & _).
    apply update_each_ok in Hrun2 as (_ & Hobjs2 & _).
    rewrite !(store_get_state_of _ st) by congruence.
    rewrite Hst1, Hst2. by rewrite (apply_entries_perm _ entries').
Qed.

Lemma update_state_ignores_key_order_witness :
  exists w1 w2,
    store_update 1 app (UObject [("a", VNum 1); ("b", VNum 2)]) pair_world =
      Some (Normal, w1) /\
    store_update 1 app (UObject [("b", VNum 2); ("a", VNum 1)]) pair_world =
      Some (Normal, w2) /\
    state_of app w1 = state_of app w2 /\
    forall q, store_get app q w1 = store_get app q w2.
Proof.
  apply (update_state_ignores_key_order 0 app pair_store pair_world).
  - vm_compute. reflexivity.
  - vm_compute. eexists. reflexivity.
  - apply pair_store_passive.
  - apply (bool_decide_unpack _). vm_compute. exact I.
  - apply perm_swap.
Defined.

(** * The component mixin *)

(** ** Templates *)

Lemma take_name_Some l : forall name rest,
  take_name l = Some (name, rest) ->
  l = name ++ "}"%char :: rest /\ "}"%char ∉ name.
Proof.
  induction l as [|c l IH]; intros name rest; simpl; [done|].
  destruct (decide (c = "}"%char)) as [->|Hc].
  - intros [= <- <-]. split; [done|apply not_elem_of_nil].
  - destruct (take_name l) as [[n r]|]; [|done].
    intros [= <- <-]. destruct (IH n r eq_refl) as [-> Hout].
    split; [done|]. by apply not_elem_of_cons.
Qed.

Lemma take_name_intro name rest :
  "}"%char ∉ name -> take_name (name ++ "}"%char :: rest) = Some (name, rest).
Proof.
  induction name as [|c name IH]; simpl; intros Hout.
  - by destruct (decide ("}"%char = "}"%char)).
  - apply not_elem_of_cons in Hout as [Hc Hout].
    destruct (decide (c = "}"%char)); [done|]. by rewrite IH.
Qed.

Lemma match_placeholder_spec l name rest :
  match_placeholder l = Some (name, rest) <->
  l = placeholder name ++ rest /\ name <> [] /\ "}"%char ∉ name.
Proof.
  unfold match_placeholder, placeholder. split.
  - destruct l as [|d [|b l]]; [done..|].
    destruct (decide _) as [[-> ->]|]; [|done].
    destruct (take_name l) as [[[|c n] r]|] eqn:E; [done| |done].
    intros [= <- <-]. apply take_name_Some in E as [-> Hout].
    split_and!; [|done|done]. simpl. by rewrite <- app_assoc.
  - intros (-> & Hne & Hout). simpl.
    assert (E : take_name ((name ++ ["}"%char]) ++ rest) = Some (name, rest)).
    { rewrite <- app_assoc. by apply take_name_intro. }
    rewrite E. by destruct name.
Qed.

Lemma match_placeholder_shorter l name rest :
  match_placeholder l = Some (name, rest) -> length rest < length l.
Proof.
  intros (-> & _)%match_placeholder_spec. unfold placeholder.
  simpl. rewrite !length_app. simpl. lia.
Qed.

Lemma replace_fuel_enough f n : forall m l,
  length l <= n -> length l <= m -> replace_fuel n f l = replace_fuel m f l.
Proof.
  induction n as [|n IH]; intros m l Hn Hm.
  - destruct l; [|simpl in Hn; lia]. by destruct m.
  - destruct m as [|m]; [destruct l; [done|simpl in Hm; lia]|].
    simpl. destruct (match_placeholder l) as [[name rest]|] eqn:E.
    + apply match_placeholder_shorter in E. f_equal. apply IH; lia.
    + destruct l as [|c l]; [done|]. simpl in *. f_equal. apply IH; lia.
Qed.

Lemma replace_all_match f l name rest :
  match_placeholder l = Some (name, rest) ->
  replace_all f l = f name ++ replace_all f rest.
Proof.
  intros E. unfold replace_all. pose proof (match_placeholder_shorter _ _ _ E).
  destruct (length l) as [|n] eqn:Hl; [lia|]. simpl. rewrite E. f_equal.
  apply replace_fuel_enough; lia.
Qed.

Lemma replace_all_skip f c l :
  match_placeholder (c :: l) = None ->
  replace_all f (c :: l) = c :: replace_all f l.
Proof.
  intros E. unfold replace_all. cbn [length replace_fuel]. by rewrite E.
Qed.

Lemma replace_all_nil f : replace_all f [] = [].
Proof. done. Qed.

Lemma match_placeholder_other c l :
  c <> "$"%char -> match_placeholder (c :: l) = None.
Proof.
  intros Hc. unfold match_placeholder. destruct l as [|b l]; [done|].
  destruct (decide _) as [[? _]|]; done.
Qed.

(** A placeholder after text without [$]: the text is kept, the
    placeholder gives way to what the replacer returns for its name, and
    the search goes on behind it. *)
Lemma replace_all_placeholder f pre name post :
  "$"%char ∉ pre -> name <> [] -> "}"%char ∉ name ->
  replace_all f (pre ++ placeholder name ++ post) =
    pre ++ f name ++ replace_all f post.
Proof.
  intros Hpre Hne Hout. induction pre as [|c pre IH]; simpl.
  - apply replace_all_match. by apply match_placeholder_spec.
  - apply not_elem_of_cons in Hpre as [Hc Hpre].
    rewrite replace_all_skip by by apply match_placeholder_other.
    f_equal. by apply IH.
Qed.

(** A text in which [${name}] does not occur is left as it is by a
    replacer that only changes the matches of [name]. *)
Lemma replace_all_absent f name l :
  (forall n, n <> name -> f n = placeholder n) ->
  (forall pre post, l <> pre ++ placeholder name ++ post) ->
  replace_all f l = l.
Proof.
  intros Hf. unfold replace_all.
  assert (H : forall n l, length l <= n ->
             (forall pre post, l <> pre ++ placeholder name ++ post) ->
             replace_fuel n f l = l); [|by apply H].
  clear l. induction n as [|n IH]; intros l Hn Habs; [done|]. simpl.
  destruct (match_placeholder l) as [[nm rest]|] eqn:E.
  - pose proof (match_placeholder_shorter _ _ _ E) as Hlt.
    apply match_placeholder_spec in E as (-> & _).
    assert (Hnm : nm <> name).
    { intros ->. by apply (Habs [] rest). }
    rewrite (Hf _ Hnm). f_equal. apply IH; [lia|].
    intros pre post ->. apply (Habs (placeholder nm ++ pre) post).
    by rewrite <- app_assoc.
  - destruct l as [|c l]; [done|]. f_equal. apply IH; [simpl in Hn; lia|].
    intros pre post ->. by apply (Habs (c :: pre) post).
Qed.

Lemma chars_app (s1 s2 : string) :
  chars (s1 ++ s2)%string = chars s1 ++ chars s2.
Proof. induction s1 as [|c s1 IH]; simpl; [done|]. by rewrite IH. Qed.

Lemma text_app l1 l2 : text (l1 ++ l2) = (text l1 ++ text l2)%string.
Proof. induction l1 as [|c l1 IH]; simpl; [done|]. by rewrite IH. Qed.

Lemma text_chars (s : string) : text (chars s) = s.
Proof. apply String.string_of_list_ascii_of_string. Qed.

Lemma chars_text l : chars (text l) = l.
Proof. apply String.list_ascii_of_string_of_list_ascii. Qed.

Lemma chars_inj (s1 s2 : string) : chars s1 = chars s2 -> s1 = s2.
Proof. intros H. by rewrite <- (text_chars s1), H, text_chars. Qed.

Lemma chars_placeholder (prop post : string) :
  chars ("${" ++ prop ++ "}" ++ post)%string =
    placeholder (chars prop) ++ chars post.
Proof.
  transitivity
    (chars (String "$" (String "{" (prop ++ String "}" post)%string)));
    [reflexivity|].
  unfold placeholder. cbn [String.list_ascii_of_string]. rewrite chars_app.
  cbn [String.list_ascii_of_string]. simpl. by rewrite <- app_assoc.
Qed.

Lemma includes_open_app pre name post :
  includes_open (pre ++ placeholder name ++ post) = true.
Proof.
  induction pre as [|c pre IH]; [done|].
  change (includes_open (c :: (pre ++ placeholder name ++ post)) = true).
  destruct (pre ++ placeholder name ++ post) as [|b l] eqn:E.
  - destruct pre; discriminate.
  - change (bool_decide (c = "$"%char /\ b = "{"%char)
            || includes_open (b :: l) = true).
    rewrite IH. apply orb_true_r.
Qed.

(** X9: a template [pre${prop}post], where [pre] has no [$]: the element
    is given [pre], then the formatted value in place of the placeholder,
    then [post] treated in the same way; such a text is taken for a
    template in the first place.  What the formatter returns is put in as
    it is, it is not searched for placeholders. *)
Theorem updateElement_fills_placeholder (pre prop post : string) formatter v :
  "$"%char ∉ chars pre ->
  prop <> ""%string ->
  "}"%char ∉ chars prop ->
  template_of (pre ++ "${" ++ prop ++ "}" ++ post)%string =
    Some (pre ++ "${" ++ prop ++ "}" ++ post)%string /\
  updateElement (Some (pre ++ "${" ++ prop ++ "}" ++ post)%string)
    prop formatter v =
    (pre ++ formatter v ++ fill prop formatter v post)%string.
Proof.
  intros Hpre Hne Hout.
  assert (Hchars : chars (pre ++ "${" ++ prop ++ "}" ++ post)%string =
                   chars pre ++ placeholder (chars prop) ++ chars post).
  { by rewrite chars_app, chars_placeholder. }
  split.
  - unfold template_of. by rewrite Hchars, includes_open_app.
  - unfold updateElement, fill. rewrite decide_False.
    2:{ intros Heq. apply (f_equal chars) in Heq. rewrite Hchars in Heq.
        destruct (chars pre); discriminate Heq. }
    rewrite Hchars.
    rewrite replace_all_placeholder; [|done| |done].
    + rewrite decide_True by done. by rewrite !text_app, !text_chars.
    + intros Hnil. apply Hne. apply chars_inj. by rewrite Hnil.
Qed.

Lemma updateElement_fills_placeholder_witness :
  template_of ("Count: " ++ "${" ++ "count" ++ "}" ++ " of ${total}")%string =
    Some ("Count: " ++ "${" ++ "count" ++ "}" ++ " of ${total}")%string /\
  updateElement
    (Some ("Count: " ++ "${" ++ "count" ++ "}" ++ " of ${total}")%string)
    "count" (fun _ => "3"%string) (VNum 3) =
    ("Count: " ++ "3" ++
       fill "count" (fun _ => "3"%string) (VNum 3) " of ${total}")%string.
Proof.
  apply (updateElement_fills_placeholder "Count: " "count" " of ${total}").
  - apply (bool_decide_unpack _). vm_compute. exact I.
  - done.
  - apply (bool_decide_unpack _). vm_compute. exact I.
Defined.

(** X10: a template in which [${prop}] does not occur is shown as it is,
    whatever the value: placeholders of other names, unclosed or empty
    ones are left in the text. *)
Theorem updateElement_keeps_other_text (t prop : string) formatter v :
  t <> ""%string ->
  (forall pre post : string, t <> (pre ++ "${" ++ prop ++ "}" ++ post)%string) ->
  updateElement (Some t) prop formatter v = t.
Proof.
  intros Hne Habs. unfold updateElement, fill. rewrite decide_False by done.
  rewrite (replace_all_absent _ (chars prop)); [apply text_chars| |].
  - intros n Hn. by rewrite decide_False.
  - intros pre post Heq. apply (Habs (text pre) (text post)).
    apply chars_inj.
    by rewrite Heq, chars_app, chars_placeholder, !chars_text.
Qed.

Lemma updateElement_keeps_other_text_witness :
  updateElement (Some "Sum: ${total}"%string) "count"
    (fun _ => "3"%string) (VNum 3) = "Sum: ${total}"%string.
Proof.
  apply updateElement_keeps_other_text; [done|].
  intros pre post H. apply (f_equal chars) in H.
  rewrite chars_app, chars_placeholder in H.
  generalize dependent (chars pre). generalize dependent (chars post).
  intros cpost cpre H. unfold placeholder in H. simpl in H.
  repeat (destruct cpre as [|? cpre]; simpl in H;
          [discriminate H|injection H as _ H]).
  destruct cpre; discriminate H.
Defined.

(** ** The document under notifications *)











Section PageWrite.
Context (pg : page) (s : sid) (st : store) (prop : string) (v : value).
Hypothesis Hs : store_objs (world_of pg) !! s = Some st.
Hypothesis Hconv : forall key eff, dom_effects pg !! key = Some eff -> conv_ok eff.
Hypothesis Hex : forall key1 key2 eff1 eff2,
  dom_effects pg !! key1 = Some eff1 -> dom_effects pg !! key2 = Some eff2 ->
  registered key1 (world_of pg) -> registered key2 (world_of pg) ->
  target_of eff1 = target_of eff2 -> key1 = key2.





End PageWrite.






(** ** Binding *)

Lemma passive_registry st :
  passive st <-> forall reg, passive_subs (registry st reg).
Proof.
  split.
  - intros [Hg Hp] [prop|]; simpl; [|done].
    destruct (propSubscribers st !! prop) as [m|] eqn:Hm; simpl.
    + by apply (Hp _ _ Hm).
    + constructor.
  - intros H. split; [apply (H None)|].
    intros prop m Hm. specialize (H (Some prop)). simpl in H.
    by rewrite Hm in H.
Qed.

Lemma subscribe_at_passive s reg cb w h w1 :
  subscribe_at s reg cb w = Some (h, w1) -> write_free cb ->
  (forall s st, store_objs w !! s = Some st -> passive st) ->
  forall s' st', store_objs w1 !! s' = Some st' -> passive st'.
Proof.
  intros Hsub Hcb Hp s' st' Hs'.
  destruct (subscribe_at_store _ _ _ _ _ _ Hsub)
    as (st & st1 & Hs & Hobjs & _ & Hreg & Hother & _).
  rewrite Hobjs in Hs'. destruct (decide (s' = s)) as [->|Hne].
  - rewrite lookup_insert_eq in Hs'. injection Hs' as <-.
    apply passive_registry. intros reg'.
    destruct (decide (reg' = reg)) as [->|Hr].
    + rewrite Hreg. apply Forall_app. split.
      * by apply passive_registry, (Hp _ _ Hs).
      * by repeat constructor.
    + rewrite Hother by done. by apply passive_registry, (Hp _ _ Hs).
  - rewrite lookup_insert_ne in Hs' by done. by apply (Hp _ _ Hs').
Qed.

Lemma subscribe_at_registered s reg cb w h w1 key :
  subscribe_at s reg cb w = Some (h, w1) ->
  registered key w1 -> registered key w \/ key = (s, reg, next_sym w).
Proof.
  intros Hsub (st' & cb' & Hs' & Hin).
  destruct (subscribe_at_store _ _ _ _ _ _ Hsub)
    as (st & st1 & Hs & Hobjs & _ & Hreg & Hother & _).
  destruct key as [[s0 reg0] id0]. simpl in *.
  rewrite Hobjs in Hs'. destruct (decide (s0 = s)) as [->|Hne].
  - rewrite lookup_insert_eq in Hs'. injection Hs' as <-.
    destruct (decide (reg0 = reg)) as [->|Hr].
    + rewrite Hreg in Hin. apply elem_of_app in Hin as [Hin|Hin].
      * left. by exists st, cb'.
      * right. apply list_elem_of_singleton in Hin. by injection Hin as -> _.
    + rewrite Hother in Hin by done. left. by exists st, cb'.
  - rewrite lookup_insert_ne in Hs' by done. left. by exists st', cb'.
Qed.

Lemma subscribe_at_registers s reg cb w h w1 :
  subscribe_at s reg cb w = Some (h, w1) ->
  registered (s, reg, next_sym w) w1 /\
  forall key, registered key w -> registered key w1.
Proof.
  intros Hsub.
  destruct (subscribe_at_store _ _ _ _ _ _ Hsub)
    as (st & st1 & Hs & Hobjs & _ & Hreg & Hother & _).
  split.
  - exists st1, cb. simpl. rewrite Hobjs, lookup_insert_eq. split; [done|].
    rewrite Hreg. apply elem_of_app. right. by apply list_elem_of_singleton.
  - intros [[s0 reg0] id0] (st' & cb' & Hs' & Hin). simpl in *.
    destruct (decide (s0 = s)) as [->|Hne].
    + exists st1, cb'. simpl. rewrite Hobjs, lookup_insert_eq. split; [done|].
      rewrite Hs in Hs'. injection Hs' as <-.
      destruct (decide (reg0 = reg)) as [->|Hr].
      * rewrite Hreg. apply elem_of_app. by left.
      * by rewrite Hother.
    + exists st', cb'. simpl. by rewrite Hobjs, lookup_insert_ne.
Qed.

Lemma subscribe_at_store_get s reg cb w h w1 s' q :
  subscribe_at s reg cb w = Some (h, w1) ->
  store_get s' q w1 = store_get s' q w.
Proof.
  intros Hsub.
  destruct (subscribe_at_store _ _ _ _ _ _ Hsub)
    as (st & st1 & Hs & Hobjs & Hst & _ & _ & Hheap & _).
  unfold store_get. rewrite Hobjs, Hheap.
  destruct (decide (s' = s)) as [->|Hne].
  - by rewrite lookup_insert_eq, Hs, Hst.
  - by rewrite lookup_insert_ne.
Qed.

Lemma subscribe_at_current s reg cb w h w1 key :
  subscribe_at s reg cb w = Some (h, w1) -> current key w1 = current key w.
Proof.
  intros Hsub. unfold current. destruct (key.1.2); [|done].
  by eapply subscribe_at_store_get.
Qed.

Lemma subscribe_at_distinct s reg cb w h w1 :
  subscribe_at s reg cb w = Some (h, w1) ->
  wf_world w -> states_distinct w -> states_distinct w1.
Proof.
  intros Hsub Hwf Hd.
  destruct (subscribe_at_store _ _ _ _ _ _ Hsub)
    as (st & st1 & Hs & Hobjs & Hst & _).
  eapply store_step_distinct; [|done..].
  by eapply store_step_set_store.
Qed.

Lemma dom_only_write_free : write_free dom_only.
Proof. intros args seen. constructor. Qed.

Lemma bind_ok pg s prop eff d1 h w1 nl :
  page_ok pg ->
  store_on s prop dom_only (world_of pg) = Some (h, w1) ->
  untouched (target_of eff) pg ->
  conv_ok eff ->
  (forall tg, tg <> target_of eff -> field tg d1 = field tg (dom_of pg)) ->
  shows (world_of pg) d1 (s, Some prop, next_sym (world_of pg)) eff ->
  next_listener pg <= nl ->
  (forall el l,
     input_listeners d1 !! el = Some l ->
     Forall (fun x => x.1.1 < nl /\
                      is_Some (store_objs (world_of pg) !! x.1.2)) l /\
     ((target_of eff = TValue el /\
       forall x, x ∈ l -> x.1.2 = s /\ x.2 = prop) \/
      (target_of eff <> TValue el /\
       input_listeners (dom_of pg) !! el = Some l))) ->
  page_ok {| world_of := w1; dom_of := d1;
             dom_effects := <[(s, Some prop, next_sym (world_of pg)) := eff]>
                              (dom_effects pg);
             next_listener := nl |}.
Proof.
  intros [Hwf Hd Hp Hkeys Hsh Hex Hls] Hon Hun Hc Hfield Hnew Hnl Hl1.
  change (subscribe_at s (Some prop) dom_only (world_of pg) = Some (h, w1)) in Hon.
  destruct (subscribe_at_handle _ _ _ _ _ _ Hon) as (_ & _ & _ & Hsym & Hsome).
  assert (Hfresh : dom_effects pg !! (s, Some prop, next_sym (world_of pg)) = None).
  { destruct (dom_effects pg !! _) as [e|] eqn:E; [|done].
    destruct (Hkeys _ _ E) as [Hlt _]. simpl in Hlt. lia. }
  assert (Hold : forall key e,
            <[(s, Some prop, next_sym (world_of pg)) := eff]> (dom_effects pg) !! key
              = Some e ->
            registered key w1 ->
            (key = (s, Some prop, next_sym (world_of pg)) /\ e = eff) \/
            (key <> (s, Some prop, next_sym (world_of pg)) /\
             dom_effects pg !! key = Some e /\ registered key (world_of pg))).
  { intros key e Hk Hreg.
    destruct (decide (key = (s, Some prop, next_sym (world_of pg)))) as [->|Hne].
    - rewrite lookup_insert_eq in Hk. injection Hk as <-. by left.
    - rewrite lookup_insert_ne in Hk by done. right. split_and!; try done.
      by destruct (subscribe_at_registered _ _ _ _ _ _ key Hon Hreg). }
  split; simpl.
  - by apply (subscribe_at_invariants _ _ _ _ _ _ Hon).
  - by eapply subscribe_at_distinct.
  - eapply subscribe_at_passive; eauto using dom_only_write_free.
  - intros key e Hk. rewrite Hsym.
    destruct (decide (key = (s, Some prop, next_sym (world_of pg)))) as [->|Hne].
    + rewrite lookup_insert_eq in Hk. injection Hk as <-. simpl.
      split_and!; [lia|done|done].
    + rewrite lookup_insert_ne in Hk by done.
      destruct (Hkeys _ _ Hk) as (? & ? & ?). split_and!; [lia|done|done].
  - intros key e Hk Hreg. unfold shows.
    rewrite (subscribe_at_current _ _ _ _ _ _ key Hon).
    destruct (Hold _ _ Hk Hreg) as [[-> ->]|(Hne & Hk' & Hreg')]; [done|].
    rewrite Hfield; [by apply Hsh|]. by apply (Hun key).
  - intros key1 key2 e1 e2 Hk1 Hk2 Hr1 Hr2 Heq.
    destruct (Hold _ _ Hk1 Hr1) as [[-> ->]|(Hne1 & Hk1' & Hr1')],
             (Hold _ _ Hk2 Hr2) as [[-> ->]|(Hne2 & Hk2' & Hr2')].
    + done.
    + by destruct (Hun key2 e2).
    + by destruct (Hun key1 e1).
    + by eapply Hex.
  - intros el l Hl. destruct (Hl1 el l Hl) as [Hall Hcase]. split.
    + eapply Forall_impl; [exact Hall|]. intros x [? [st0 Hst0]]. split; [done|].
      destruct (subscribe_at_invariants _ _ _ _ _ _ Hon) as [(_ & _ & Hev & _) _].
      destruct (Hev _ _ Hst0) as (st' & -> & _). done.
    + intros lid s' prop' key e Hin Hk Hreg Htg.
      destruct (Hold _ _ Hk Hreg) as [[-> ->]|(Hne & Hk' & Hreg')].
      * destruct Hcase as [[_ Hall']|[Hno _]]; [|done].
        destruct (Hall' _ Hin) as [Hx1 Hx2]. simpl in *. by subst.
      * destruct Hcase as [[Hyes _]|[_ Hl0]].
        -- destruct (Hun key e Hk' Hreg'). congruence.
        -- destruct (Hls el l Hl0) as [_ Hrest]. by eapply Hrest.
Qed.

Lemma bindElement_spec s st el prop formatter c pg :
  page_ok pg ->
  store_objs (world_of pg) !! s = Some st ->
  untouched (TText el) pg ->
  exists pg',
    bindElement s (Some el) prop formatter c pg =
      Some ({| _unsubscribers :=
                 _unsubscribers c ++
                 [Unsub (UnsubProp s prop (next_sym (world_of pg)))];
               _boundElements :=
                 <[el := (prop, UnsubProp s prop (next_sym (world_of pg)))]>
                   (_boundElements c) |}, pg') /\
    page_ok pg' /\
    text_of (dom_of pg') el =
      updateElement (template_of (text_of (dom_of pg) el)) prop formatter
        (store_get s prop (world_of pg)) /\
    dom_effects pg' =
      <[(s, Some prop, next_sym (world_of pg)) :=
          UpdateElement el (template_of (text_of (dom_of pg) el)) prop
            formatter]> (dom_effects pg) /\
    registered (s, Some prop, next_sym (world_of pg)) (world_of pg') /\
    (forall s' q, store_get s' q (world_of pg') = store_get s' q (world_of pg)) /\
    trace (world_of pg') = trace (world_of pg) /\
    input_listeners (dom_of pg') = input_listeners (dom_of pg) /\
    is_Some (store_objs (world_of pg') !! s).
Proof.
  intros Hok Hs Hun. unfold bindElement.
  destruct (store_on s prop dom_only (world_of pg)) as [[h w1]|] eqn:Hon.
  2:{ rewrite store_on_eq, Hs in Hon. done. }
  assert (Hh : h = UnsubProp s prop (next_sym (world_of pg))).
  { rewrite store_on_eq, Hs in Hon. by injection Hon as <- _. }
  change (subscribe_at s (Some prop) dom_only (world_of pg) = Some (h, w1)) in Hon.
  subst h. simpl. eexists. split; [done|]. simpl. split_and!.
  - apply (bind_ok pg s prop
             (UpdateElement el (template_of (text_of (dom_of pg) el)) prop formatter)
             _ _ w1 (next_listener pg) Hok Hon Hun); try done.
    + intros tg Hne. destruct tg as [el'|el']; [|done].
      simpl. unfold text_of. simpl. rewrite lookup_insert_ne; [done|].
      simpl in Hne. congruence.
    + left. simpl. unfold text_of. simpl. by rewrite lookup_insert_eq.
    + intros el0 l Hl. simpl in Hl. destruct Hok as [_ _ _ _ _ _ Hls].
      destruct (Hls el0 l Hl) as [Hall _]. split; [done|]. by right.
  - unfold text_of. simpl. by rewrite lookup_insert_eq.
  - done.
  - by destruct (subscribe_at_registers _ _ _ _ _ _ Hon).
  - intros s' q. by eapply subscribe_at_store_get.
  - by destruct (subscribe_at_store _ _ _ _ _ _ Hon)
      as (? & ? & _ & _ & _ & _ & _ & _ & _ & ?).
  - done.
  - destruct (subscribe_at_invariants _ _ _ _ _ _ Hon) as [(_ & _ & Hev & _) _].
    destruct (Hev _ _ Hs) as (st' & -> & _). done.
Qed.


Lemma bindInput_spec s st el prop conv c pg :
  page_ok pg ->
  store_objs (world_of pg) !! s = Some st ->
  untouched (TValue el) pg ->
  default [] (input_listeners (dom_of pg) !! el) = [] ->
  (forall t, conv (VStr t) = t) ->
  exists pg',
    bindInput s (Some el) prop conv c pg =
      Some ({| _unsubscribers :=
                 (_unsubscribers c ++
                  [Unsub (UnsubProp s prop (next_sym (world_of pg)))]) ++
                 [RemoveListener el (next_listener pg)];
               _boundElements := _boundElements c |}, pg') /\
    page_ok pg' /\
    value_of (dom_of pg') el =
      (if truthy (store_get s prop (world_of pg))
       then conv (store_get s prop (world_of pg)) else ""%string) /\
    input_listeners (dom_of pg') !! el = Some [(next_listener pg, s, prop)] /\
    dom_effects pg' =
      <[(s, Some prop, next_sym (world_of pg)) := UpdateInput el conv]>
        (dom_effects pg) /\
    registered (s, Some prop, next_sym (world_of pg)) (world_of pg') /\
    (forall s' q, store_get s' q (world_of pg') = store_get s' q (world_of pg)).
Proof.
  intros Hok Hs Hun Hnone Hconv. unfold bindInput.
  destruct (store_on s prop dom_only (world_of pg)) as [[h w1]|] eqn:Hon.
  2:{ rewrite store_on_eq, Hs in Hon. done. }
  assert (Hh : h = UnsubProp s prop (next_sym (world_of pg))).
  { rewrite store_on_eq, Hs in Hon. by injection Hon as <- _. }
  change (subscribe_at s (Some prop) dom_only (world_of pg) = Some (h, w1)) in Hon.
  subst h. simpl.
  assert (Hval : conv (js_or (store_get s prop (world_of pg)) (VStr "")) =
                 if truthy (store_get s prop (world_of pg))
                 then conv (store_get s prop (world_of pg)) else ""%string).
  { unfold js_or. destruct (truthy _); [done|apply Hconv]. }
  eexists. split; [done|]. simpl. split_and!.
  - apply (bind_ok pg s prop (UpdateInput el conv) _ _ w1
             (S (next_listener pg)) Hok Hon Hun); try done.
    + intros tg Hne. destruct tg as [el'|el']; [done|].
      simpl. unfold value_of. simpl. rewrite lookup_insert_ne; [done|].
      simpl in Hne. congruence.
    + unfold shows, current. simpl. unfold value_of. simpl.
      rewrite lookup_insert_eq. simpl. rewrite Hval.
      destruct (truthy _) eqn:Ht; [by left|right]. eauto.
    + lia.
    + intros el0 l Hl. simpl in Hl. rewrite Hnone in Hl. simpl.
      destruct (decide (el0 = el)) as [->|Hne].
      * rewrite lookup_insert_eq in Hl. injection Hl as <-. split.
        -- apply Forall_cons. split; [|constructor].
           simpl. split; [lia|by eexists].
        -- left. split; [done|]. intros x Hx.
           apply list_elem_of_singleton in Hx. by subst x.
      * rewrite lookup_insert_ne in Hl by done.
        destruct Hok as [_ _ _ _ _ _ Hls].
        destruct (Hls el0 l Hl) as [Hall _]. split.
        -- eapply Forall_impl; [exact Hall|]. intros x [? ?]. split; [lia|done].
        -- right. split; [congruence|done].
  - unfold value_of. simpl. by rewrite lookup_insert_eq.
  - simpl. by rewrite Hnone, lookup_insert_eq.
  - done.
  - by destruct (subscribe_at_registers _ _ _ _ _ _ Hon).
  - intros s' q. by eapply subscribe_at_store_get.
Qed.



(** ** Disconnecting *)

Lemma unsub_registered h w key :
  registered key (call_unsub h w) <-> registered key w /\ key <> handle_key h.
Proof.
  destruct (store_objs w !! handle_store h) as [st|] eqn:E.
  - destruct (call_unsub_store _ _ _ E) as (st' & Hobjs & Hst & Hreg & Hother).
    destruct key as [[s0 reg0] id0]. unfold registered, handle_key. simpl.
    rewrite Hobjs. split.
    + intros (st2 & cb & Hs2 & Hin).
      destruct (decide (s0 = handle_store h)) as [->|Hs0].
      * rewrite lookup_insert_eq in Hs2. injection Hs2 as <-.
        destruct (decide (reg0 = handle_reg h)) as [->|Hr0].
        -- rewrite Hreg in Hin. apply list_elem_of_filter in Hin as [Hid Hin].
           simpl in Hid. split; [by exists st, cb|congruence].
        -- rewrite Hother in Hin by done. split; [by exists st, cb|congruence].
      * rewrite lookup_insert_ne in Hs2 by done.
        split; [by exists st2, cb|congruence].
    + intros [(st2 & cb & Hs2 & Hin) Hne].
      destruct (decide (s0 = handle_store h)) as [->|Hs0].
      * rewrite E in Hs2. injection Hs2 as <-.
        exists st', cb. rewrite lookup_insert_eq. split; [done|].
        destruct (decide (reg0 = handle_reg h)) as [->|Hr0].
        -- rewrite Hreg. apply elem_of_map_delete; [done|]. congruence.
        -- by rewrite Hother.
      * exists st2, cb. by rewrite lookup_insert_ne.
  - rewrite unsub_noop by (intros st; by rewrite E). split.
    + intros H. split; [done|]. intros ->.
      destruct H as (st & _ & Hs & _). simpl in Hs. congruence.
    + by intros [H _].
Qed.

Lemma unsub_store_get h w s q :
  store_get s q (call_unsub h w) = store_get s q w.
Proof.
  destruct (call_unsub_frame h w) as (Hheap & _ & _ & _ & Hrest).
  unfold store_get. rewrite Hheap.
  destruct (decide (s = handle_store h)) as [->|Hne]; [|by rewrite Hrest].
  destruct (store_objs w !! handle_store h) as [st|] eqn:E.
  - destruct (call_unsub_store _ _ _ E) as (st' & Hobjs & Hst & _).
    by rewrite Hobjs, lookup_insert_eq, Hst.
  - rewrite unsub_noop by (intros st; by rewrite E). by rewrite E.
Qed.

Lemma unsub_passive h w :
  (forall s st, store_objs w !! s = Some st -> passive st) ->
  forall s st, store_objs (call_unsub h w) !! s = Some st -> passive st.
Proof.
  intros Hp s st' Hs'.
  destruct (store_objs w !! handle_store h) as [st|] eqn:E.
  - destruct (call_unsub_store _ _ _ E) as (st1 & Hobjs & Hst & Hreg & Hother).
    rewrite Hobjs in Hs'. destruct (decide (s = handle_store h)) as [->|Hne].
    + rewrite lookup_insert_eq in Hs'. injection Hs' as <-.
      apply passive_registry. intros reg.
      destruct (decide (reg = handle_reg h)) as [->|Hr].
      * rewrite Hreg. apply Forall_forall. intros x Hx.
        apply list_elem_of_filter in Hx as [_ Hx].
        pose proof (proj1 (passive_registry st) (Hp _ _ E) (handle_reg h)) as Hall.
        by apply (proj1 (Forall_forall _ _) Hall).
      * rewrite Hother by done. by apply passive_registry, (Hp _ _ E).
    + rewrite lookup_insert_ne in Hs' by done. by apply (Hp _ _ Hs').
  - rewrite unsub_noop in Hs' by (intros st; by rewrite E). by apply (Hp _ _ Hs').
Qed.

Lemma unsub_current h w key : current key (call_unsub h w) = current key w.
Proof. unfold current. destruct (key.1.2); [apply unsub_store_get|done]. Qed.

Lemma page_ok_cleanup cl pg : page_ok pg -> page_ok (run_cleanup cl pg).
Proof.
  intros [Hwf Hd Hp Hkeys Hsh Hex Hls]. destruct cl as [h|el lid].
  - destruct (call_unsub_frame h (world_of pg)) as (_ & _ & _ & Hsym & _).
    split; simpl.
    + by apply unsub_invariants.
    + eapply store_step_distinct; [apply call_unsub_store_step|done..].
    + by apply unsub_passive.
    + intros key eff Hk. rewrite Hsym. by apply Hkeys.
    + intros key eff Hk Hreg. apply unsub_registered in Hreg as [Hreg _].
      unfold shows. rewrite unsub_current. by apply Hsh.
    + intros key1 key2 eff1 eff2 Hk1 Hk2 Hr1 Hr2.
      apply unsub_registered in Hr1 as [Hr1 _].
      apply unsub_registered in Hr2 as [Hr2 _]. by eapply Hex.
    + intros el l Hl. destruct (Hls el l Hl) as [Hall Hbound]. split.
      * eapply Forall_impl; [exact Hall|]. intros x [? [st Hst]]. split; [done|].
        destruct (unsub_invariants h (world_of pg)) as [(_ & _ & Hev & _) _].
        destruct (Hev _ _ Hst) as (st' & -> & _). done.
      * intros lid s prop key eff Hin Hk Hreg.
        apply unsub_registered in Hreg as [Hreg _]. by eapply Hbound.
  - split; simpl; try done.
    intros el0 l Hl. destruct (decide (el0 = el)) as [->|Hne].
    + rewrite lookup_insert_eq in Hl. injection Hl as <-.
      destruct (input_listeners (dom_of pg) !! el) as [l0|] eqn:El0; simpl.
      * destruct (Hls el l0 El0) as [Hall Hbound]. split.
        -- apply Forall_forall. intros x Hx.
           apply list_elem_of_filter in Hx as [_ Hx].
           by apply (proj1 (Forall_forall _ _) Hall).
        -- intros lid0 s prop key eff Hin.
           apply list_elem_of_filter in Hin as [_ Hin]. by eapply Hbound.
      * split; [constructor|]. intros lid0 s prop key eff Hin.
        by apply elem_of_nil in Hin.
    + rewrite lookup_insert_ne in Hl by done. by apply Hls.
Qed.

Lemma cleanup_registered cl pg key :
  registered key (world_of (run_cleanup cl pg)) <->
  registered key (world_of pg) /\ forall h, cl = Unsub h -> key <> handle_key h.
Proof.
  destruct cl as [h|el lid]; simpl.
  - rewrite unsub_registered. split.
    + intros [H Hne]. split; [done|]. by intros h' [= <-].
    + intros [H Hne]. split; [done|]. by apply Hne.
  - split; [|by intros [H _]]. intros H. split; [done|]. by intros h [=].
Qed.

Lemma cleanup_listeners cl pg el x :
  x ∈ listeners_of (run_cleanup cl pg) el <->
  x ∈ listeners_of pg el /\ forall lid, cl = RemoveListener el lid -> x.1.1 <> lid.
Proof.
  unfold listeners_of. destruct cl as [h|el0 lid]; simpl.
  - split; [|by intros [H _]]. intros H. split; [done|]. by intros lid [=].
  - destruct (decide (el = el0)) as [->|Hne].
    + rewrite lookup_insert_eq. simpl. rewrite list_elem_of_filter. split.
      * intros [Hx Hin]. split; [done|]. by intros lid' [= <-].
      * intros [Hin Hx]. split; [|done]. by apply Hx.
    + rewrite lookup_insert_ne by done. split; [|by intros [H _]].
      intros H. split; [done|]. intros lid' [= ? ?]. congruence.
Qed.

Lemma cleanup_keeps cl pg :
  (forall s q, store_get s q (world_of (run_cleanup cl pg)) =
               store_get s q (world_of pg)) /\
  trace (world_of (run_cleanup cl pg)) = trace (world_of pg) /\
  texts (dom_of (run_cleanup cl pg)) = texts (dom_of pg) /\
  inputs (dom_of (run_cleanup cl pg)) = inputs (dom_of pg) /\
  dom_effects (run_cleanup cl pg) = dom_effects pg.
Proof.
  destruct cl as [h|el lid]; simpl; [|done].
  split_and!; try done.
  - intros s q. apply unsub_store_get.
  - by destruct (call_unsub_frame h (world_of pg)) as (_ & _ & ? & _).
Qed.

Lemma cleanups_spec l : forall pg,
  let pg' := foldl (fun pg cl => run_cleanup cl pg) pg l in
  (page_ok pg -> page_ok pg') /\
  (forall key, registered key (world_of pg') <->
     registered key (world_of pg) /\
     forall h, Unsub h ∈ l -> key <> handle_key h) /\
  (forall el x, x ∈ listeners_of pg' el <->
     x ∈ listeners_of pg el /\
     forall lid, RemoveListener el lid ∈ l -> x.1.1 <> lid) /\
  (forall s q, store_get s q (world_of pg') = store_get s q (world_of pg)) /\
  trace (world_of pg') = trace (world_of pg) /\
  texts (dom_of pg') = texts (dom_of pg) /\
  inputs (dom_of pg') = inputs (dom_of pg) /\
  dom_effects pg' = dom_effects pg.
Proof.
  induction l as [|cl l IH]; intros pg; simpl.
  - split_and!; try done.
    + intros key. split; [|by intros [H _]]. intros H. split; [done|].
      intros h Hin. by apply elem_of_nil in Hin.
    + intros el x. split; [|by intros [H _]]. intros H. split; [done|].
      intros lid Hin. by apply elem_of_nil in Hin.
  - destruct (IH (run_cleanup cl pg)) as (Hok & Hreg & Hlis & Hget & Htr & Htx & Hin & Heff).
    destruct (cleanup_keeps cl pg) as (Hget1 & Htr1 & Htx1 & Hin1 & Heff1).
    split_and!.
    + intros H. by apply Hok, page_ok_cleanup.
    + intros key. rewrite Hreg, cleanup_registered. split.
      * intros [[H H1] H2]. split; [done|]. intros h Hh.
        apply elem_of_cons in Hh as [Hh|Hh]; [by apply H1|by apply H2].
      * intros [H H1]. split_and!; [done| |].
        -- intros h ->. apply H1. by left.
        -- intros h Hh. apply H1. by right.
    + intros el x. rewrite Hlis, cleanup_listeners. split.
      * intros [[H H1] H2]. split; [done|]. intros lid Hh.
        apply elem_of_cons in Hh as [Hh|Hh]; [by apply H1|by apply H2].
      * intros [H H1]. split_and!; [done| |].
        -- intros lid ->. apply H1. by left.
        -- intros lid Hh. apply H1. by right.
    + intros s q. by rewrite Hget, Hget1.
    + by rewrite Htr, Htr1.
    + by rewrite Htx, Htx1.
    + by rewrite Hin, Hin1.
    + by rewrite Heff, Heff1.
Qed.

(** X15: [disconnectedCallback] takes out of the subscriber maps exactly
    the subscriptions whose unsubscribe functions the component kept, and
    from the inputs exactly the listeners it added; nobody is called, no
    value of a store and no text changes, and what other components bound
    still shows the value of its property.  [_unsubscribers] is emptied,
    so a second call does nothing; [_boundElements] is left as it is. *)
Theorem disconnectedCallback_undoes_bindings c pg :
  page_ok pg ->
  page_ok (disconnectedCallback c pg).2 /\
  (forall key, registered key (world_of (disconnectedCallback c pg).2) <->
     registered key (world_of pg) /\
     forall h, Unsub h ∈ _unsubscribers c -> key <> handle_key h) /\
  (forall el x, x ∈ listeners_of (disconnectedCallback c pg).2 el <->
     x ∈ listeners_of pg el /\
     forall lid, RemoveListener el lid ∈ _unsubscribers c -> x.1.1 <> lid) /\
  (forall s q, store_get s q (world_of (disconnectedCallback c pg).2) =
               store_get s q (world_of pg)) /\
  trace (world_of (disconnectedCallback c pg).2) = trace (world_of pg) /\
  texts (dom_of (disconnectedCallback c pg).2) = texts (dom_of pg) /\
  inputs (dom_of (disconnectedCallback c pg).2) = inputs (dom_of pg) /\
  _boundElements (disconnectedCallback c pg).1 = _boundElements c /\
  disconnectedCallback (disconnectedCallback c pg).1 (disconnectedCallback c pg).2
    = disconnectedCallback c pg.
Proof.
  intros Hok. unfold disconnectedCallback. simpl.
  destruct (cleanups_spec (_unsubscribers c) pg)
    as (H1 & H2 & H3 & H4 & H5 & H6 & H7 & _).
  split_and!; try done. by apply H1.
Qed.

(** ** Connecting *)

Lemma page_ok_subscribe pg s reg cb h w1 :
  page_ok pg ->
  subscribe_at s reg cb (world_of pg) = Some (h, w1) ->
  write_free cb ->
  page_ok {| world_of := w1; dom_of := dom_of pg;
             dom_effects := dom_effects pg;
             next_listener := next_listener pg |}.
Proof.
  intros [Hwf Hd Hp Hkeys Hsh Hex Hls] Hsub Hcb.
  destruct (subscribe_at_handle _ _ _ _ _ _ Hsub) as (_ & _ & _ & Hsym & _).
  assert (Hold : forall key eff, dom_effects pg !! key = Some eff ->
            registered key w1 -> registered key (world_of pg)).
  { intros key eff Hk Hreg.
    destruct (subscribe_at_registered _ _ _ _ _ _ key Hsub Hreg) as [?| ->];
      [done|].
    destruct (Hkeys _ _ Hk) as [Hlt _]. simpl in Hlt. lia. }
  split; simpl.
  - by apply (subscribe_at_invariants _ _ _ _ _ _ Hsub).
  - by eapply subscribe_at_distinct.
  - by eapply subscribe_at_passive.
  - intros key eff Hk. rewrite Hsym.
    destruct (Hkeys _ _ Hk) as (? & ? & ?). split_and!; [lia|done|done].
  - intros key eff Hk Hreg. unfold shows.
    rewrite (subscribe_at_current _ _ _ _ _ _ key Hsub).
    apply Hsh; [done|]. by eapply Hold.
  - intros key1 key2 eff1 eff2 Hk1 Hk2 Hr1 Hr2.
    apply (Hex _ _ _ _ Hk1 Hk2); by eapply Hold.
  - intros el l Hl. destruct (Hls el l Hl) as [Hall Hbound]. split.
    + eapply Forall_impl; [exact Hall|]. intros x [? [st0 Hst0]]. split; [done|].
      destruct (subscribe_at_invariants _ _ _ _ _ _ Hsub) as [(_ & _ & Hev & _) _].
      destruct (Hev _ _ Hst0) as (st' & -> & _). done.
    + intros lid s' prop' key eff Hin Hk Hreg. eapply Hbound; [done..|].
      by eapply Hold.
Qed.

Lemma subscribe_at_state_of s reg cb w h w1 :
  subscribe_at s reg cb w = Some (h, w1) -> state_of s w1 = state_of s w.
Proof.
  intros Hsub.
  destruct (subscribe_at_store _ _ _ _ _ _ Hsub)
    as (st & st1 & Hs & Hobjs & Hst & _ & _ & Hheap & _).
  unfold state_of. by rewrite Hobjs, lookup_insert_eq, Hs, Hheap, Hst.
Qed.

Lemma connect_handler_write_free props view :
  (forall seen, Forall (fun c => c = CThrow) (view seen)) ->
  write_free (connect_handler props view).
Proof.
  intros Hv [v old|p v] seen; simpl.
  - destruct old; try constructor. destruct (bool_decide _); [done|constructor].
  - destruct (bool_decide _); [done|constructor].
Qed.

(** X16: [connect] with a callback that does not write to a store: the
    handler is subscribed to the store and its unsubscribe function kept,
    then the callback is called once with the state as it is, and if it
    throws, [connect] throws: the call is outside any [try], nothing is
    reported on the console, and the handler stays subscribed.  In both
    cases no value and no text of the page changes. *)
Theorem connect_subscribes_then_calls fuel s st props view c pg :
  page_ok pg ->
  store_objs (world_of pg) !! s = Some st ->
  (forall seen, Forall (fun c => c = CThrow) (view seen)) ->
  exists pg',
    connect fuel s props view c pg =
      Some (if throws (view (state_of s (world_of pg))) then Throw else Normal,
            {| _unsubscribers :=
                 _unsubscribers c ++
                 [Unsub (UnsubGlobal s (next_sym (world_of pg)))];
               _boundElements := _boundElements c |}, pg') /\
    page_ok pg' /\
    registered (s, None, next_sym (world_of pg)) (world_of pg') /\
    (forall key, registered key (world_of pg) -> registered key (world_of pg')) /\
    dom_of pg' = dom_of pg /\
    trace (world_of pg') = trace (world_of pg) /\
    forall s' q, store_get s' q (world_of pg') = store_get s' q (world_of pg).
Proof.
  intros Hok Hs Hview. unfold connect.
  destruct (store_subscribe s (connect_handler (props_array props) view)
              (world_of pg)) as [[h w1]|] eqn:Hsub.
  2:{ unfold store_subscribe in Hsub. by rewrite Hs in Hsub. }
  assert (Hh : h = UnsubGlobal s (next_sym (world_of pg))).
  { unfold store_subscribe in Hsub. rewrite Hs in Hsub. simpl in Hsub.
    by injection Hsub as <- _. }
  change (subscribe_at s None (connect_handler (props_array props) view)
            (world_of pg) = Some (h, w1)) in Hsub.
  subst h. rewrite (run_body_write_free _ _ _ (Hview _)).
  rewrite (subscribe_at_state_of _ _ _ _ _ _ Hsub).
  eexists. split; [done|].
  assert (Htr : trace w1 = trace (world_of pg)).
  { by destruct (subscribe_at_store _ _ _ _ _ _ Hsub)
      as (? & ? & _ & _ & _ & _ & _ & _ & _ & ?). }
  unfold settle. simpl. rewrite drop_all. simpl. split_and!.
  - eapply page_ok_subscribe; [done..|].
    by apply connect_handler_write_free.
  - by destruct (subscribe_at_registers _ _ _ _ _ _ Hsub).
  - by destruct (subscribe_at_registers _ _ _ _ _ _ Hsub).
  - done.
  - done.
  - intros s' q. by eapply subscribe_at_store_get.
Qed.

(** ** The example page *)

Lemma hello_page_ok : page_ok hello_page.
Proof.
  split.
  - apply (bool_decide_unpack _). vm_compute. exact I.
  - apply (run_distinct 8
             [OpCreateStore "app" None; OpSet app "name" (VStr "Ann")]
             module_loaded);
      [vm_compute; reflexivity|apply wf_module_loaded
      |apply distinct_module_loaded].
  - intros s st Hs.
    assert (Hall : map_Forall (fun _ st => passive st)
                     (store_objs (world_of hello_page))).
    { rewrite map_Forall_to_list. set (l := map_to_list _).
      assert (l = [(1, {| stateObj := 2; subscribers := [];
                          propSubscribers := ∅ |});
                   (0, {| stateObj := 1; subscribers := [];
                          propSubscribers := ∅ |})]) as ->.
      { vm_compute. reflexivity. }
      repeat constructor; simpl; try apply map_Forall_empty. }
    by apply (Hall s st).
  - intros key eff Hk. simpl in Hk. by rewrite lookup_empty in Hk.
  - intros key eff Hk. simpl in Hk. by rewrite lookup_empty in Hk.
  - intros key1 key2 eff1 eff2 Hk. simpl in Hk. by rewrite lookup_empty in Hk.
  - intros el l Hl. simpl in Hl. by rewrite lookup_empty in Hl.
Qed.

Lemma hello_bound_ok : page_ok hello_bound.2.
Proof.
  unfold hello_bound.
  assert (Hs : store_objs (world_of hello_page) !! app =
               Some {| stateObj := 2; subscribers := []; propSubscribers := ∅ |}).
  { vm_compute. reflexivity. }
  destruct (bindElement_spec app _ greeting "name" as_text new_component
              hello_page hello_page_ok Hs)
    as (pg1 & -> & Hok1 & _ & Heff1 & _ & _ & _ & Hlis1 & [st1 Hs1]).
  { intros key eff Hk. simpl in Hk. by rewrite lookup_empty in Hk. }
  destruct (bindInput_spec app st1 name_box "name" as_text
              {| _unsubscribers :=
                   _unsubscribers new_component ++
                   [Unsub (UnsubProp app "name" (next_sym (world_of hello_page)))];
                 _boundElements :=
                   <[greeting :=
                       ("name"%string,
                        UnsubProp app "name" (next_sym (world_of hello_page)))]>
                     (_boundElements new_component) |}
              pg1 Hok1 Hs1)
    as (pg2 & -> & Hok2 & _).
  - intros key eff Hk Hreg. rewrite Heff1 in Hk.
    apply lookup_insert_Some in Hk as [[_ <-]|[_ Hk]]; [done|].
    simpl in Hk. by rewrite lookup_empty in Hk.
  - rewrite Hlis1. simpl. by rewrite lookup_empty.
  - done.
  - done.
Qed.





Lemma disconnectedCallback_undoes_bindings_witness :
  page_ok (disconnectedCallback hello_bound.1 hello_bound.2).2 /\
  (forall key,
     registered key (world_of (disconnectedCallback hello_bound.1 hello_bound.2).2) <->
     registered key (world_of hello_bound.2) /\
     forall h, Unsub h ∈ _unsubscribers hello_bound.1 -> key <> handle_key h) /\
  (forall el x,
     x ∈ listeners_of (disconnectedCallback hello_bound.1 hello_bound.2).2 el <->
     x ∈ listeners_of hello_bound.2 el /\
     forall lid, RemoveListener el lid ∈ _unsubscribers hello_bound.1 ->
                 x.1.1 <> lid) /\
  (forall s q,
     store_get s q (world_of (disconnectedCallback hello_bound.1 hello_bound.2).2) =
     store_get s q (world_of hello_bound.2)) /\
  trace (world_of (disconnectedCallback hello_bound.1 hello_bound.2).2) =
    trace (world_of hello_bound.2) /\
  texts (dom_of (disconnectedCallback hello_bound.1 hello_bound.2).2) =
    texts (dom_of hello_bound.2) /\
  inputs (dom_of (disconnectedCallback hello_bound.1 hello_bound.2).2) =
    inputs (dom_of hello_bound.2) /\
  _boundElements (disconnectedCallback hello_bound.1 hello_bound.2).1 =
    _boundElements hello_bound.1 /\
  disconnectedCallback (disconnectedCallback hello_bound.1 hello_bound.2).1
    (disconnectedCallback hello_bound.1 hello_bound.2).2
    = disconnectedCallback hello_bound.1 hello_bound.2.
Proof.
  apply (disconnectedCallback_undoes_bindings hello_bound.1 hello_bound.2).
  apply hello_bound_ok.
Defined.

Lemma connect_subscribes_then_calls_witness :
  exists pg',
    connect 1 app (PropName "name") failing_view hello_bound.1 hello_bound.2 =
      Some (if throws (failing_view (state_of app (world_of hello_bound.2)))
            then Throw else Normal,
            {| _unsubscribers :=
                 _unsubscribers hello_bound.1 ++
                 [Unsub (UnsubGlobal app (next_sym (world_of hello_bound.2)))];
               _boundElements := _boundElements hello_bound.1 |}, pg') /\
    page_ok pg' /\
    registered (app, None, next_sym (world_of hello_bound.2)) (world_of pg') /\
    (forall key, registered key (world_of hello_bound.2) ->
                 registered key (world_of pg')) /\
    dom_of pg' = dom_of hello_bound.2 /\
    trace (world_of pg') = trace (world_of hello_bound.2) /\
    forall s' q, store_get s' q (world_of pg') =
                 store_get s' q (world_of hello_bound.2).
Proof.
  apply (connect_subscribes_then_calls 1 app hello_store (PropName "name")
           failing_view hello_bound.1 hello_bound.2).
  - apply hello_bound_ok.
  - vm_compute. reflexivity.
  - intros seen. repeat constructor.
Defined.

(** ** A callback that writes *)




(** The example page by evaluation: what is shown after binding, after
    [store.set('name', 'Bob')] and after typing [Cy] into the input. *)
Example hello_bound_shows :
  text_of (dom_of hello_bound.2) greeting = "Hello Ann!"%string /\
  value_of (dom_of hello_bound.2) name_box = "Ann"%string /\
  _unsubscribers hello_bound.1 =
    [Unsub (UnsubProp app "name" 0); Unsub (UnsubProp app "name" 1);
     RemoveListener name_box 0].
Proof. vm_compute. by split_and!. Qed.

Example hello_after_write :
  match page_set 1 app "name" (VStr "Bob") hello_bound.2 with
  | Some (Normal, pg) =>
      text_of (dom_of pg) greeting = "Hello Bob!"%string /\
      value_of (dom_of pg) name_box = "Bob"%string
  | _ => False
  end.
Proof. vm_compute. by split. Qed.

Example hello_after_typing :
  match input_event 1 name_box "Cy" hello_bound.2 with
  | Some (Normal, pg) =>
      text_of (dom_of pg) greeting = "Hello Cy!"%string /\
      value_of (dom_of pg) name_box = "Cy"%string /\
      store_get app "name" (world_of pg) = VStr "Cy"
  | _ => False
  end.
Proof. vm_compute. by split_and!. Qed.

(** ** Callbacks that throw, one report each *)

Section Blocks.
Context (set : setter) (Hset : setter_ok set).

End Blocks.


